(** * BlackListValidator (src/blacklist.js): a shallow embedding

    The AngularJS service keeps two word lists, the two regular
    expressions built from them and a cache of verdicts keyed by the
    32-bit hash of the checked text.  This file embeds

    - [String.prototype.hashCode]          (blacklist.js, lines 49-58),
    - the service state and its initial value (lines 81-96 and 127),
    - the two [$http.get] callbacks         (lines 103-116),
    - [check]                               (lines 137-156),

    together with a model of the part of the built-in [RegExp] object
    that the service relies on.

    A JavaScript string is the list of its UTF-16 code units. *)

From Stdlib Require Import ZArith List String Ascii Bool Lia.
From stdpp Require Import gmap.

Local Open Scope Z_scope.

(** ** JavaScript strings *)

Definition jsstring : Type := list Z.

(** String literals of the source, written as Rocq strings. *)
Definition str (s : string) : jsstring :=
  List.map (fun a => Z.of_N (N_of_ascii a)) (list_ascii_of_string s).

(** [a.join(sep)] on an array of strings. *)
Fixpoint join (sep : jsstring) (a : list jsstring) : jsstring :=
  match a with
  | [] => []
  | [x] => x
  | x :: rest => x ++ sep ++ join sep rest
  end.

(** A non-empty string is truthy, the empty string is falsy. *)
Definition truthy (s : jsstring) : bool :=
  match s with [] => false | _ :: _ => true end.

(** ** Int32 arithmetic *)

Module Int32.

Definition modulus : Z := 2 ^ 32.
Definition half : Z := 2 ^ 31.

(** [ToInt32]: reduce modulo 2^32 into [-2^31, 2^31). *)
Definition toInt32 (x : Z) : Z := (x + half) mod modulus - half.

(** [a << n] : both operands pass through [ToInt32] / [ToUint32], the
    shift count is masked to five bits, the result is an Int32. *)
Definition shl (a n : Z) : Z :=
  toInt32 (Z.shiftl (toInt32 a) (Z.land n 31)).

(** [a & b] on Int32 operands. *)
Definition and (a b : Z) : Z :=
  toInt32 (Z.land (toInt32 a) (toInt32 b)).

Definition in_range (x : Z) : Prop := - half <= x < half.

End Int32.

(** ** String.prototype.hashCode (lines 49-58) *)

(** [s.charCodeAt(i)]; the loop never leaves the string, where the
    built-in would answer NaN. *)
Definition charCodeAt (s : jsstring) (i : nat) : Z := nth i s 0.

(** The body of the [for] loop, run for the [n] remaining indices
    starting at [i].  Between [<<] and [&] the value is a Number; it stays
    below 2^34 in size, so the subtraction and the addition are exact. *)
Fixpoint hashCode_loop (s : jsstring) (n : nat) (i : nat) (hash : Z) : Z :=
  match n with
  | O => hash
  | S n' =>
      let character := charCodeAt s i in
      let hash := (Int32.shl hash 5 - hash) + character in
      let hash := Int32.and hash hash in
      hashCode_loop s n' (S i) hash
  end.

Definition hashCode (s : jsstring) : Z :=
  let hash := 0 in
  if Nat.eqb (length s) 0 then hash
  else hashCode_loop s (length s) 0%nat hash.

(** The hash as the specification words it: a rolling hash, left to
    right, seeded at 0, each step [((hash << 5) - hash) + charCode]
    truncated to 32 bits. *)
Definition spec_hash_step (hash c : Z) : Z :=
  Int32.toInt32 ((Z.shiftl hash 5 - hash) + c).

Definition spec_rolling_hash (s : jsstring) : Z :=
  fold_left spec_hash_step s 0.

(** The same hash as a polynomial in 31, truncated once at the end. *)
Definition poly31 (s : jsstring) : Z :=
  fold_left (fun acc c => 31 * acc + c) s 0.

(** ** The built-in RegExp object

    The service builds its patterns with [new RegExp(source, "i")] and
    only asks whether [exec] finds a match.  The model covers the
    pattern syntax made of ASCII pattern characters, [.], [|], groups
    [( )] and [(?: )], and the quantifiers [*], [+], [?] (greedy or
    lazy).  The constructor answers [Unsupported] for every other source:
    assertions, escapes, character classes, braces and pattern characters
    outside ASCII, whose case folding needs the Unicode tables. *)

Module RegExp.

Inductive regex : Type :=
| Eps                       (* the empty alternative *)
| Chr (p : Z)               (* a pattern character *)
| Any                       (* [.] *)
| Seq (r1 r2 : regex)
| Alt (r1 r2 : regex)
| Star (r : regex)
| Plus1 (r : regex)
| Opt (r : regex).

(** *** Matching *)

(** [Canonicalize] under the [i] flag, on ASCII: a-z go to A-Z.  A code
    unit from 128 on never canonicalizes below 128, so it never meets
    the canonical form of an ASCII pattern character; leaving it
    unchanged gives the same comparisons. *)
Definition canonicalize (c : Z) : Z :=
  if (97 <=? c) && (c <=? 122) then c - 32 else c.

Definition char_match (p c : Z) : bool :=
  canonicalize p =? canonicalize c.

(** Line terminators, which [.] refuses: LF, CR, LS, PS. *)
Definition line_terminator (c : Z) : bool :=
  (c =? 10) || (c =? 13) || (c =? 8232) || (c =? 8233).

(** A continuation receives the rest of the input. *)
Definition continuation : Type := jsstring -> bool.

(** The repeat matcher for [*]: one more round of [body] that consumes
    at least one code unit, or stop.  [fuel] bounds the rounds by the
    length of the input. *)
Fixpoint repeat_matcher (body : jsstring -> continuation -> bool)
    (fuel : nat) (x : jsstring) (k : continuation) : bool :=
  match fuel with
  | O => k x
  | S fuel' =>
      body x (fun y => (length y <? length x)%nat
                       && repeat_matcher body fuel' y k)
      || k x
  end.

(** [matcher r x k]: some prefix of [x] matches [r] and [k] accepts
    the rest. *)
Fixpoint matcher (r : regex) (x : jsstring) (k : continuation) : bool :=
  match r with
  | Eps => k x
  | Chr p =>
      match x with
      | c :: y => char_match p c && k y
      | [] => false
      end
  | Any =>
      match x with
      | c :: y => negb (line_terminator c) && k y
      | [] => false
      end
  | Seq r1 r2 => matcher r1 x (fun y => matcher r2 y k)
  | Alt r1 r2 => matcher r1 x k || matcher r2 x k
  | Star r => repeat_matcher (matcher r) (length x) x k
  | Plus1 r =>
      matcher r x (fun y => repeat_matcher (matcher r) (length y) y k)
  | Opt r => matcher r x k || k x
  end.

(** [r.exec(x) !== null] for a pattern without the [g] flag: a match
    starting at index 0, or at a later index. *)
Fixpoint exec_found (r : regex) (x : jsstring) : bool :=
  matcher r x (fun _ => true)
  || match x with
     | [] => false
     | _ :: y => exec_found r y
     end.

(** *** The constructor *)

Inductive ctor_result : Type :=
| Compiled (r : regex)
| SyntaxError
| Unsupported.

(** What may follow the last term of the alternative being read. *)
Inductive term_state : Type :=
| NoAtom          (* nothing to repeat *)
| Quantifiable    (* an atom: a quantifier may follow *)
| Quantified      (* a quantified atom: only the lazy [?] may follow *)
| Lazy.

(** The disjunction being read: its finished alternatives and the terms
    of the current one, both most recent first. *)
Record frame : Type := {
  alts : list regex;
  terms : list regex;
  last : term_state
}.

Definition fresh : frame := {| alts := []; terms := []; last := NoAtom |}.

Fixpoint seq_of (ts : list regex) : regex :=
  match ts with
  | [] => Eps
  | [t] => t
  | t :: ts' => Seq t (seq_of ts')
  end.

Fixpoint disj_of (rs : list regex) : regex :=
  match rs with
  | [] => Eps
  | [r] => r
  | r :: rs' => Alt r (disj_of rs')
  end.

Definition close (f : frame) : regex :=
  disj_of (rev (seq_of (rev (terms f)) :: alts f)).

Definition push_atom (t : regex) (f : frame) : frame :=
  {| alts := alts f; terms := t :: terms f; last := Quantifiable |}.

Definition next_alternative (f : frame) : frame :=
  {| alts := seq_of (rev (terms f)) :: alts f; terms := []; last := NoAtom |}.

Definition quantify (q : regex -> regex) (f : frame) : option frame :=
  match last f, terms f with
  | Quantifiable, t :: ts =>
      Some {| alts := alts f; terms := q t :: ts; last := Quantified |}
  | _, _ => None
  end.

(** [?] is a quantifier after an atom and the lazy mark after a
    quantifier; laziness does not change whether a match exists. *)
Definition question (f : frame) : option frame :=
  match last f with
  | Quantified =>
      Some {| alts := alts f; terms := terms f; last := Lazy |}
  | _ => quantify Opt f
  end.

(** Syntax characters this model does not read: [^ $ \ [ ] { }]. *)
Definition unread_syntax (c : Z) : bool :=
  (c =? 94) || (c =? 36) || (c =? 92) || (c =? 91) || (c =? 93)
  || (c =? 123) || (c =? 125).

Definition ascii (c : Z) : bool := (0 <=? c) && (c <? 128).

Fixpoint parse (p : jsstring) (cur : frame) (stack : list frame)
    : ctor_result :=
  match p with
  | [] =>
      match stack with
      | [] => Compiled (close cur)
      | _ :: _ => SyntaxError            (* unterminated group *)
      end
  | c :: p' =>
      if c =? 40 then                    (* ( *)
        match p' with
        | 63 :: 58 :: p'' => parse p'' fresh (cur :: stack)    (* (?: *)
        | 63 :: _ => Unsupported         (* look-ahead and other (? forms *)
        | _ => parse p' fresh (cur :: stack)
        end
      else if c =? 41 then               (* ) *)
        match stack with
        | [] => SyntaxError              (* unmatched ) *)
        | f :: stack' => parse p' (push_atom (close cur) f) stack'
        end
      else if c =? 124 then              (* | *)
        parse p' (next_alternative cur) stack
      else if c =? 42 then               (* * *)
        match quantify Star cur with
        | Some cur' => parse p' cur' stack
        | None => SyntaxError            (* nothing to repeat *)
        end
      else if c =? 43 then               (* + *)
        match quantify Plus1 cur with
        | Some cur' => parse p' cur' stack
        | None => SyntaxError
        end
      else if c =? 63 then               (* ? *)
        match question cur with
        | Some cur' => parse p' cur' stack
        | None => SyntaxError
        end
      else if c =? 46 then               (* . *)
        parse p' (push_atom Any cur) stack
      else if unread_syntax c || negb (ascii c) then Unsupported
      else parse p' (push_atom (Chr c) cur) stack
  end.

(** [new RegExp(source, "i")] *)
Definition new_i (source : jsstring) : ctor_result :=
  parse source fresh [].

(** *** Plain words as patterns *)

(** The frame after the characters of [w] were pushed on [f]. *)
Definition push_word (w : jsstring) (f : frame) : frame :=
  fold_left (fun f c => push_atom (Chr c) f) w f.

(** The syntax tree of a plain word: its characters in sequence. *)
Definition word_regex (w : jsstring) : regex := seq_of (List.map Chr w).

Definition start_frame (A : list regex) : frame :=
  {| alts := A; terms := []; last := NoAtom |}.

End RegExp.

(** ** The service state (lines 81-96 and 127) *)

Record service : Type := {
  blacklist : list jsstring;
  blacklistReg : RegExp.regex;
  whitelist : list jsstring;
  whitelistReg : RegExp.regex;
  (** [checkedTerms]: an object used as a map from hash codes to verdicts *)
  checkedTerms : gmap Z bool
}.

Definition set_blacklist (l : list jsstring) (s : service) : service :=
  {| blacklist := l; blacklistReg := blacklistReg s;
     whitelist := whitelist s; whitelistReg := whitelistReg s;
     checkedTerms := checkedTerms s |}.

Definition set_whitelist (l : list jsstring) (s : service) : service :=
  {| blacklist := blacklist s; blacklistReg := blacklistReg s;
     whitelist := l; whitelistReg := whitelistReg s;
     checkedTerms := checkedTerms s |}.

Definition set_blacklistReg (r : RegExp.regex) (s : service) : service :=
  {| blacklist := blacklist s; blacklistReg := r;
     whitelist := whitelist s; whitelistReg := whitelistReg s;
     checkedTerms := checkedTerms s |}.

Definition set_whitelistReg (r : RegExp.regex) (s : service) : service :=
  {| blacklist := blacklist s; blacklistReg := blacklistReg s;
     whitelist := whitelist s; whitelistReg := r;
     checkedTerms := checkedTerms s |}.

Definition set_checkedTerms (m : gmap Z bool) (s : service) : service :=
  {| blacklist := blacklist s; blacklistReg := blacklistReg s;
     whitelist := whitelist s; whitelistReg := whitelistReg s;
     checkedTerms := m |}.

(** The service function up to the [$http.get] call: both lists empty,
    both patterns [new RegExp("", "i")], no checked term. *)
Definition construct : option service :=
  match RegExp.new_i (str ""), RegExp.new_i (str "") with
  | RegExp.Compiled b, RegExp.Compiled w =>
      Some {| blacklist := []; blacklistReg := b;
              whitelist := []; whitelistReg := w;
              checkedTerms := ∅ |}
  | _, _ => None
  end.

(** The state [construct] returns. *)
Definition init : service :=
  {| blacklist := []; blacklistReg := RegExp.Eps;
     whitelist := []; whitelistReg := RegExp.Eps;
     checkedTerms := ∅ |}.

(** ** Logging (lines 119-121) *)

(** [log(t)] hands one line to [$log.info]. *)
Definition log (t : jsstring) : jsstring :=
  str "[BlackListValidator] " ++ t.

(** ** The list load (lines 103-116) *)

(** The fetched record; either field may be missing. *)
Record response : Type := {
  res_blacklist : option (list jsstring);
  res_whitelist : option (list jsstring)
}.

(** [a || []] *)
Definition or_empty (a : option (list jsstring)) : list jsstring :=
  match a with
  | Some l => l
  | None => []
  end.

(** ["(?:" + l.join("|") + ")"] *)
Definition alternation_source (l : list jsstring) : jsstring :=
  str "(?:" ++ join (str "|") l ++ str ")".

(** How a callback ends. *)
Inductive completion : Type :=
| Normal
| Throw.    (* a SyntaxError raised by the RegExp constructor *)

(** The success callback.  A constructor call that throws ends the
    callback where it stands: the assignments before it are done, those
    after it are not.  [None]: a pattern source outside the modelled
    syntax. *)
Definition on_success (res : response) (s : service)
    : option (completion * service) :=
  let s := set_blacklist (blacklist s ++ or_empty (res_blacklist res)) s in
  let s := set_whitelist (whitelist s ++ or_empty (res_whitelist res)) s in
  match RegExp.new_i (alternation_source (blacklist s)) with
  | RegExp.Unsupported => None
  | RegExp.SyntaxError => Some (Throw, s)
  | RegExp.Compiled b =>
      let s := set_blacklistReg b s in
      match RegExp.new_i (alternation_source (whitelist s)) with
      | RegExp.Unsupported => None
      | RegExp.SyntaxError => Some (Throw, s)
      | RegExp.Compiled w =>
          let s := set_whitelistReg w s in
          let s := set_checkedTerms ∅ s in
          Some (Normal, s)
      end
  end.

(** The error callback: one log line, the state is not touched. *)
Definition error_message : jsstring :=
  str "Blacklist-File not found. Please ensure, that you have the file 'data/blacklist.json' present in your application root".

Definition on_error (s : service) : service * list jsstring :=
  (s, [log error_message]).

(** ** check (lines 137-156) *)

(** [!value] for a value that is a string or absent. *)
Definition falsy (value : option jsstring) : bool :=
  match value with
  | None => true
  | Some v => negb (truthy v)
  end.

Definition string_of (value : option jsstring) : jsstring :=
  match value with
  | None => []
  | Some v => v
  end.

Definition bool_to_string (b : bool) : jsstring :=
  if b then str "true" else str "false".

(** [check value s] returns the verdict, the state after the call and the
    lines logged.  In line 153 the [+] binds tighter than [?:], so the
    condition of the conditional is the whole concatenated string. *)
Definition check (value : option jsstring) (s : service)
    : bool * service * list jsstring :=
  if falsy value || Nat.eqb (length (blacklist s)) 0 then (true, s, [])
  else
    let value := string_of value in
    let old := checkedTerms s !! hashCode value in
    match old with
    | Some old => (old, s, [log (str "Returning old cached value")])
    | None =>
        let result := true in
        let blacklisted := RegExp.exec_found (blacklistReg s) value in
        let result :=
          if blacklisted then
            let whitelisted := RegExp.exec_found (whitelistReg s) value in
            whitelisted
          else result in
        let s := set_checkedTerms
                   (<[hashCode value := result]> (checkedTerms s)) s in
        (result, s,
         [log (if truthy (str "'" ++ value ++ str "' : "
                          ++ bool_to_string result)
               then str "blachlisted" else str "whitelisted")])
    end.

Definition verdict (value : option jsstring) (s : service) : bool :=
  fst (fst (check value s)).

Definition after_check (value : option jsstring) (s : service) : service :=
  snd (fst (check value s)).

Definition logged (value : option jsstring) (s : service) : list jsstring :=
  snd (check value s).

(** A call is answered from the cache when the lookup in line 140 finds
    an entry, which is then the value returned. *)
Definition served_from_cache (value : option jsstring) (s : service) : Prop :=
  falsy value || Nat.eqb (length (blacklist s)) 0 = false
  /\ checkedTerms s !! hashCode (string_of value) = Some (verdict value s).

(** ** Runs of the service *)

Inductive event : Type :=
| Check (value : option jsstring)
| LoadSucceeded (res : response)
| LoadFailed.

(** The verdicts of the [check] calls of a run, in order, and the final
    state.  A callback that throws does not stop the service. *)
Fixpoint run (es : list event) (s : service) : option (list bool * service) :=
  match es with
  | [] => Some ([], s)
  | Check value :: es' =>
      match run es' (after_check value s) with
      | Some (vs, s') => Some (verdict value s :: vs, s')
      | None => None
      end
  | LoadSucceeded res :: es' =>
      match on_success res s with
      | Some (_, s') => run es' s'
      | None => None
      end
  | LoadFailed :: es' => run es' (fst (on_error s))
  end.

(** The verdicts of consecutive [check] calls. *)
Fixpoint checks (values : list (option jsstring)) (s : service)
    : list bool * service :=
  match values with
  | [] => ([], s)
  | value :: values' =>
      let '(vs, s') := checks values' (after_check value s) in
      (verdict value s :: vs, s')
  end.

(** ** Words without pattern syntax *)

(** A pattern character of the modelled syntax: ASCII and none of
    [^ $ \ . * + ? ( ) [ ] { } |]. *)
Definition plain_char (c : Z) : bool :=
  RegExp.ascii c
  && negb ((c =? 40) || (c =? 41) || (c =? 124) || (c =? 42) || (c =? 43)
           || (c =? 63) || (c =? 46) || RegExp.unread_syntax c).

Definition plain_word (w : jsstring) : bool := forallb plain_char w.

(** [w] starts [x], letter case aside. *)
Fixpoint starts_with_ci (w x : jsstring) : bool :=
  match w, x with
  | [], _ => true
  | _ :: _, [] => false
  | p :: w', c :: x' => RegExp.char_match p c && starts_with_ci w' x'
  end.

(** [w] occurs in [x] as a substring, letter case aside. *)
Fixpoint occurs_ci (w x : jsstring) : bool :=
  starts_with_ci w x
  || match x with
     | [] => false
     | _ :: x' => occurs_ci w x'
     end.

(** ** Notions used in the statements *)

(** The verdict lines 146-151 compute from the two patterns. *)
Definition computed_verdict (s : service) (value : jsstring) : bool :=
  if RegExp.exec_found (blacklistReg s) value
  then RegExp.exec_found (whitelistReg s) value
  else true.

(** The verdict [check] gives when no term has been checked yet. *)
Definition uncached_verdict (value : option jsstring) (s : service) : bool :=
  verdict value (set_checkedTerms ∅ s).


(** The whitelist pattern matches every string and no cached verdict is
    [false]. *)
Definition always_valid (s : service) : Prop :=
  (forall x, RegExp.exec_found (whitelistReg s) x = true)
  /\ (forall h b, checkedTerms s !! h = Some b -> b = true).

(** Both patterns are the ones the constructor builds from the lists. *)
Definition patterns_consistent (s : service) : Prop :=
  RegExp.new_i (alternation_source (blacklist s))
  = RegExp.Compiled (blacklistReg s)
  /\ RegExp.new_i (alternation_source (whitelist s))
     = RegExp.Compiled (whitelistReg s).

(** ** Inputs of the examples *)

Definition badword_response : response :=
  {| res_blacklist := Some [str "badword"]; res_whitelist := Some [] |}.

Definition override_response : response :=
  {| res_blacklist := Some [str "bad"]; res_whitelist := Some [str "badass"] |}.

(** A fragment that is not a pattern on its own: an open parenthesis. *)
Definition malformed_response : response :=
  {| res_blacklist := Some [str "("]; res_whitelist := None |}.

(** The state the service is in once [override_response] is loaded. *)
Definition override_state : service :=
  {| blacklist := [str "bad"];
     blacklistReg := RegExp.word_regex (str "bad");
     whitelist := [str "badass"];
     whitelistReg := RegExp.word_regex (str "badass");
     checkedTerms := ∅ |}.



(** The state the service is in once [badword_response] is loaded. *)
Definition badword_state : service :=
  {| blacklist := [str "badword"];
     blacklistReg := RegExp.word_regex (str "badword");
     whitelist := [];
     whitelistReg := RegExp.Eps;
     checkedTerms := ∅ |}.

Ltac simpl_setters :=
  unfold set_blacklist, set_whitelist, set_blacklistReg, set_whitelistReg,
    set_checkedTerms;
  cbn [blacklist whitelist blacklistReg whitelistReg checkedTerms].

(** A load whose only blacklisted word hashes like the clean text "BB". *)
Definition collision_response : response :=
  {| res_blacklist := Some [str "Aa"]; res_whitelist := Some [str "zz"] |}.

(** ** The directive (lines 180-199) *)

(** What a function of the [ngModel] pipeline leaves: the value it
    returns ([None] is [undefined]), the validity it set for the key
    [blacklist], the service after its call of [check], and the lines
    logged. *)
Record piped : Type := {
  returned : option jsstring;
  validity : bool;
  service_after : service;
  lines : list jsstring
}.

(** The parser, DOM to model (lines 187-191). *)
Definition parser (value : option jsstring) (s : service) : piped :=
  let '(v, s', l) := check value s in
  {| returned := if v then value else None;
     validity := v;
     service_after := s';
     lines := l |}.

(** The formatter, model to DOM (lines 194-197). *)
Definition formatter (value : option jsstring) (s : service) : piped :=
  let '(v, s', l) := check value s in
  {| returned := value;
     validity := v;
     service_after := s';
     lines := l |}.

(** ** Further notions *)

(** Two texts that differ in the case of ASCII letters only. *)
Definition same_letters (x y : jsstring) : Prop :=
  Forall2 (fun c d => RegExp.canonicalize c = RegExp.canonicalize d) x y.

(** Some word of the list occurs in the text, letter case aside. *)
Definition some_occurs (ws : list jsstring) (T : jsstring) : bool :=
  existsb (fun w => occurs_ci w T) ws.

(** The record that holds the fragments of two fetched records, in
    order. *)
Definition merge_responses (r1 r2 : response) : response :=
  {| res_blacklist :=
       Some (or_empty (res_blacklist r1) ++ or_empty (res_blacklist r2));
     res_whitelist :=
       Some (or_empty (res_whitelist r1) ++ or_empty (res_whitelist r2)) |}.

(** A load whose whitelist holds a fragment that is no pattern. *)
Definition malformed_whitelist_response : response :=
  {| res_blacklist := Some [str "bad"]; res_whitelist := Some [str "("] |}.

(** A load with the word "c++" beside "badword". *)
Definition cplusplus_response : response :=
  {| res_blacklist := Some [str "c++"; str "badword"];
     res_whitelist := Some [str "badass"] |}.

(** The state once [collision_response] is loaded. *)
Definition collision_state : service :=
  {| blacklist := [str "Aa"];
     blacklistReg := RegExp.word_regex (str "Aa");
     whitelist := [str "zz"];
     whitelistReg := RegExp.word_regex (str "zz");
     checkedTerms := ∅ |}.


(** * Properties *)

(** ** Int32 arithmetic *)

Section Int32Facts.
Import Int32.

Lemma toInt32_range x : in_range (toInt32 x).
Proof.
  unfold in_range, toInt32.
  assert (0 <= (x + half) mod modulus < modulus)
    by (apply Z.mod_pos_bound; reflexivity).
  unfold modulus, half in *. lia.
Qed.

Lemma toInt32_id x : in_range x -> toInt32 x = x.
Proof.
  unfold in_range, toInt32, modulus, half. intros Hx.
  rewrite Z.mod_small; lia.
Qed.

Lemma toInt32_idem x : toInt32 (toInt32 x) = toInt32 x.
Proof. apply toInt32_id, toInt32_range. Qed.

(** The Int32 image differs from its argument by a multiple of 2^32. *)
Lemma toInt32_shift x : exists q, toInt32 x = x + q * modulus.
Proof.
  exists (- ((x + half) / modulus)). unfold toInt32.
  rewrite Z.mod_eq by (unfold modulus; lia). lia.
Qed.

(** Two integers that differ by a multiple of 2^32 have one image. *)
Lemma toInt32_add_multiple x q : toInt32 (x + q * modulus) = toInt32 x.
Proof.
  unfold toInt32. f_equal.
  replace (x + q * modulus + half) with (x + half + q * modulus) by lia.
  apply Z.mod_add. unfold modulus. lia.
Qed.

Lemma and_diag x : and x x = toInt32 x.
Proof. unfold and. rewrite Z.land_diag. apply toInt32_idem. Qed.

Lemma shl_5 x : shl x 5 = toInt32 (32 * toInt32 x).
Proof.
  unfold shl. change (Z.land 5 31) with 5.
  rewrite Z.shiftl_mul_pow2 by lia. f_equal. change (2 ^ 5) with 32. lia.
Qed.

End Int32Facts.

(** ** hashCode *)

(** One round of the loop is one step of the rolling hash: the
    truncation inside [<<] is absorbed by the one of [&]. *)
Lemma loop_body_is_spec_step hash c :
  Int32.and (Int32.shl hash 5 - hash + c) (Int32.shl hash 5 - hash + c)
  = spec_hash_step hash c.
Proof.
  rewrite and_diag, shl_5. unfold spec_hash_step.
  rewrite Z.shiftl_mul_pow2 by lia. change (2 ^ 5) with 32.
  destruct (toInt32_shift hash) as [q1 Hq1].
  destruct (toInt32_shift (32 * Int32.toInt32 hash)) as [q2 Hq2].
  rewrite Hq2, Hq1.
  replace (32 * (hash + q1 * Int32.modulus) + q2 * Int32.modulus - hash + c)
    with (hash * 32 - hash + c + (32 * q1 + q2) * Int32.modulus) by lia.
  apply toInt32_add_multiple.
Qed.

Lemma hashCode_loop_fold (pre rest : jsstring) (hash : Z) :
  hashCode_loop (pre ++ rest) (length rest) (length pre) hash
  = fold_left spec_hash_step rest hash.
Proof.
  revert pre hash. induction rest as [|c rest IH]; intros pre hash.
  - reflexivity.
  - cbn [length hashCode_loop fold_left].
    unfold charCodeAt. rewrite app_nth2 by lia.
    rewrite Nat.sub_diag. cbn [nth].
    rewrite loop_body_is_spec_step.
    specialize (IH (pre ++ [c]) (spec_hash_step hash c)).
    rewrite <- app_assoc, length_app in IH. cbn [app length] in IH.
    rewrite Nat.add_1_r in IH. exact IH.
Qed.

Lemma hashCode_fold (s : jsstring) : hashCode s = fold_left spec_hash_step s 0.
Proof.
  unfold hashCode. destruct s as [|c s]; [reflexivity|].
  cbn [length Nat.eqb]. exact (hashCode_loop_fold [] (c :: s) 0).
Qed.

Lemma fold_spec_step_range (s : jsstring) (hash : Z) :
  Int32.in_range hash -> Int32.in_range (fold_left spec_hash_step s hash).
Proof.
  revert hash. induction s as [|c s IH]; intros hash Hh; [exact Hh|].
  cbn [fold_left]. apply IH. apply toInt32_range.
Qed.

Lemma fold_spec_step_poly (s : jsstring) (hash acc : Z) :
  Int32.toInt32 acc = hash ->
  fold_left spec_hash_step s hash
  = Int32.toInt32 (fold_left (fun a c => 31 * a + c) s acc).
Proof.
  revert hash acc. induction s as [|c s IH]; intros hash acc Hacc.
  - symmetry. exact Hacc.
  - cbn [fold_left]. apply IH. subst hash. unfold spec_hash_step.
    rewrite Z.shiftl_mul_pow2 by lia. change (2 ^ 5) with 32.
    destruct (toInt32_shift acc) as [q Hq]. rewrite Hq.
    replace ((acc + q * Int32.modulus) * 32 - (acc + q * Int32.modulus) + c)
      with (31 * acc + c + (31 * q) * Int32.modulus) by lia.
    symmetry. apply toInt32_add_multiple.
Qed.

(** C8. For every string, [hashCode] is the 32-bit signed rolling hash of
    the specification: seeded at 0 and stepping left to right over the
    code units with [((hash << 5) - hash) + charCode] truncated to 32
    bits.  The value lies in the signed 32-bit range, equals the
    polynomial in 31 truncated once, and the empty string hashes to 0. *)
Theorem hashCode_is_rolling_hash (s : jsstring) :
  hashCode s = spec_rolling_hash s
  /\ Int32.in_range (hashCode s)
  /\ hashCode s = Int32.toInt32 (poly31 s)
  /\ hashCode [] = 0.
Proof.
  rewrite hashCode_fold. unfold spec_rolling_hash, poly31.
  split; [reflexivity|]. split; [|split].
  - apply fold_spec_step_range. unfold Int32.in_range, Int32.half. lia.
  - apply fold_spec_step_poly. reflexivity.
  - reflexivity.
Qed.

Example hashCode_abc : hashCode (str "abc") = 96354.
Proof. reflexivity. Qed.

Example hashCode_negative : hashCode (str "clean text") = -905509724.
Proof. reflexivity. Qed.

Example hashCode_collision : hashCode (str "Aa") = hashCode (str "BB").
Proof. reflexivity. Qed.

(** ** The RegExp model *)

Section RegExpFacts.
Import RegExp.

(** The pattern compiled from the empty source finds a match in every
    string: the empty match at index 0. *)
Lemma exec_found_Eps (x : jsstring) : exec_found Eps x = true.
Proof. destruct x; reflexivity. Qed.

Lemma new_i_empty_source : new_i (str "") = Compiled Eps.
Proof. reflexivity. Qed.

Lemma new_i_empty_alternation : new_i (alternation_source []) = Compiled Eps.
Proof. reflexivity. Qed.

(** *** Reading plain words *)

Lemma plain_char_tests (c : Z) :
  plain_char c = true ->
  (c =? 40) = false /\ (c =? 41) = false /\ (c =? 124) = false
  /\ (c =? 42) = false /\ (c =? 43) = false /\ (c =? 63) = false
  /\ (c =? 46) = false /\ unread_syntax c = false /\ ascii c = true.
Proof.
  unfold plain_char. intros H.
  apply andb_prop in H as [Ha H]. apply negb_true_iff in H.
  repeat (apply orb_false_elim in H as [H ?]). tauto.
Qed.

Lemma parse_plain_char (c : Z) (p : jsstring) cur stack :
  plain_char c = true ->
  parse (c :: p) cur stack = parse p (push_atom (Chr c) cur) stack.
Proof.
  intros H. apply plain_char_tests in H.
  destruct H as (H1 & H2 & H3 & H4 & H5 & H6 & H7 & H8 & H9).
  cbn [parse]. rewrite H1, H2, H3, H4, H5, H6, H7, H8, H9. reflexivity.
Qed.

Lemma parse_plain_word (w p : jsstring) cur stack :
  plain_word w = true ->
  parse (w ++ p) cur stack = parse p (push_word w cur) stack.
Proof.
  revert cur. induction w as [|c w IH]; intros cur Hw; [reflexivity|].
  cbn [plain_word forallb] in Hw. apply andb_prop in Hw as [Hc Hw].
  cbn [app]. rewrite parse_plain_char by exact Hc. apply IH, Hw.
Qed.

Lemma push_word_alts w f : alts (push_word w f) = alts f.
Proof. revert f. induction w as [|c w IH]; intros f; [reflexivity|].
  cbn [push_word fold_left]. fold (push_word w (push_atom (Chr c) f)).
  rewrite IH. reflexivity. Qed.

Lemma push_word_terms w f :
  terms (push_word w f) = rev (List.map Chr w) ++ terms f.
Proof.
  revert f. induction w as [|c w IH]; intros f; [reflexivity|].
  cbn [push_word fold_left]. fold (push_word w (push_atom (Chr c) f)).
  rewrite IH. cbn [List.map rev push_atom terms].
  rewrite <- app_assoc. reflexivity.
Qed.

Lemma close_push_word w A :
  close (push_word w (start_frame A)) = disj_of (rev A ++ [word_regex w]).
Proof.
  unfold close. rewrite push_word_alts, push_word_terms.
  cbn [start_frame alts terms rev]. rewrite app_nil_r, rev_involutive.
  reflexivity.
Qed.

Lemma next_alternative_push_word w A :
  next_alternative (push_word w (start_frame A))
  = start_frame (word_regex w :: A).
Proof.
  unfold next_alternative. rewrite push_word_alts, push_word_terms.
  cbn [start_frame alts terms]. rewrite app_nil_r, rev_involutive.
  reflexivity.
Qed.

Lemma parse_bar (p : jsstring) cur stack :
  parse (124 :: p) cur stack = parse p (next_alternative cur) stack.
Proof. reflexivity. Qed.

Lemma parse_close_paren (p : jsstring) cur top stack :
  parse (41 :: p) cur (top :: stack)
  = parse p (push_atom (close cur) top) stack.
Proof. reflexivity. Qed.

(** Reading the joined words of a group up to its closing parenthesis
    leaves the disjunction of the words as one atom of the enclosing
    frame. *)
Lemma parse_joined_words (ws : list jsstring) :
  ws <> [] ->
  forallb plain_word ws = true ->
  forall A p top stack,
    parse (join (str "|") ws ++ 41 :: p) (start_frame A) (top :: stack)
    = parse p
        (push_atom (disj_of (rev A ++ List.map word_regex ws)) top) stack.
Proof.
  induction ws as [|w ws IH]; intros Hne Hws A p top stack; [congruence|].
  cbn [forallb] in Hws. apply andb_prop in Hws as [Hw Hws].
  destruct ws as [|w2 ws].
  - cbn [join List.map].
    rewrite parse_plain_word, parse_close_paren, close_push_word by exact Hw.
    reflexivity.
  - change (join (str "|") (w :: w2 :: ws))
      with (w ++ 124 :: join (str "|") (w2 :: ws)).
    rewrite <- app_assoc. cbn [app].
    rewrite parse_plain_word, parse_bar, next_alternative_push_word
      by exact Hw.
    rewrite IH by (congruence || exact Hws).
    cbn [rev List.map]. rewrite <- app_assoc. reflexivity.
Qed.

(** The constructor on the alternation of a non-empty list of plain
    words. *)
Lemma new_i_plain_alternation (ws : list jsstring) :
  ws <> [] ->
  forallb plain_word ws = true ->
  new_i (alternation_source ws)
  = Compiled (disj_of (List.map word_regex ws)).
Proof.
  intros Hne Hws. unfold new_i, alternation_source.
  change (str "(?:" ++ join (str "|") ws ++ str ")")
    with (40 :: 63 :: 58 :: join (str "|") ws ++ 41 :: []).
  change (parse (40 :: 63 :: 58 :: join (str "|") ws ++ [41]) fresh [])
    with (parse (join (str "|") ws ++ [41]) (start_frame []) [fresh]).
  rewrite parse_joined_words by assumption. reflexivity.
Qed.


(** *** Matching plain words *)

Lemma matcher_word_regex (w x : jsstring) (k : continuation) :
  matcher (word_regex w) x k
  = starts_with_ci w x && k (skipn (length w) x).
Proof.
  revert x. induction w as [|p w IH]; intros x; [reflexivity|].
  destruct w as [|p2 w].
  - destruct x as [|c y]; [reflexivity|].
    cbn. rewrite andb_true_r. reflexivity.
  - change (word_regex (p :: p2 :: w))
      with (Seq (Chr p) (word_regex (p2 :: w))).
    destruct x as [|c y]; [reflexivity|].
    cbn [matcher]. rewrite IH.
    cbn [starts_with_ci length skipn]. rewrite andb_assoc. reflexivity.
Qed.

Lemma matcher_disj_of (rs : list regex) (x : jsstring) (k : continuation) :
  rs <> [] ->
  matcher (disj_of rs) x k = existsb (fun r => matcher r x k) rs.
Proof.
  induction rs as [|r rs IH]; intros Hne; [congruence|].
  destruct rs as [|r2 rs].
  - cbn. rewrite orb_false_r. reflexivity.
  - change (disj_of (r :: r2 :: rs)) with (Alt r (disj_of (r2 :: rs))).
    cbn [matcher]. rewrite IH by congruence. reflexivity.
Qed.

Lemma existsb_orb {A : Type} (f g : A -> bool) (l : list A) :
  existsb (fun a => f a || g a) l = existsb f l || existsb g l.
Proof.
  induction l as [|a l IH]; [reflexivity|].
  cbn [existsb]. rewrite IH.
  destruct (f a), (g a), (existsb f l), (existsb g l); reflexivity.
Qed.

Lemma existsb_map_pointwise {A B : Type} (f : A -> B) (g : B -> bool)
    (h : A -> bool) (l : list A) :
  (forall a, g (f a) = h a) ->
  existsb g (List.map f l) = existsb h l.
Proof.
  intros Hgh. induction l as [|a l IH]; [reflexivity|].
  cbn [List.map existsb]. rewrite Hgh, IH. reflexivity.
Qed.

(** The alternation of plain words finds a match exactly where one of
    the words occurs as a substring, letter case aside. *)
Lemma exec_found_plain_alternation (ws : list jsstring) (x : jsstring) :
  ws <> [] ->
  exec_found (disj_of (List.map word_regex ws)) x
  = existsb (fun w => occurs_ci w x) ws.
Proof.
  intros Hne.
  assert (Hm : List.map word_regex ws <> [])
    by (destruct ws; [congruence | discriminate]).
  induction x as [|c x IH].
  - cbn [exec_found occurs_ci]. rewrite matcher_disj_of by exact Hm.
    rewrite orb_false_r.
    apply existsb_map_pointwise. intros w.
    rewrite matcher_word_regex, andb_true_r, orb_false_r. reflexivity.
  - cbn [exec_found occurs_ci]. rewrite IH, existsb_orb.
    rewrite matcher_disj_of by exact Hm.
    f_equal. apply existsb_map_pointwise. intros w.
    rewrite matcher_word_regex. apply andb_true_r.
Qed.

(** *** The repeat matcher has fuel enough *)

(** A matcher asks its continuation and nothing else about the rest. *)
Lemma matcher_ext (r : regex) (x : jsstring) (k k' : continuation) :
  (forall y, k y = k' y) -> matcher r x k = matcher r x k'.
Proof.
  revert x k k'.
  assert (Hrep : forall body : jsstring -> continuation -> bool,
             (forall x k k', (forall y, k y = k' y) -> body x k = body x k') ->
             forall fuel x k k',
               (forall y, k y = k' y) ->
               repeat_matcher body fuel x k = repeat_matcher body fuel x k').
  { intros body Hbody fuel.
    induction fuel as [|fuel IH]; intros x k k' Hk; cbn [repeat_matcher].
    - apply Hk.
    - rewrite (Hk x). f_equal. apply Hbody. intros y.
      rewrite (IH y k k' Hk). reflexivity. }
  induction r as [|p| |r1 IH1 r2 IH2|r1 IH1 r2 IH2|r IH|r IH|r IH];
    intros x k k' Hk; cbn [matcher].
  - apply Hk.
  - destruct x as [|c y]; [reflexivity|]. rewrite (Hk y). reflexivity.
  - destruct x as [|c y]; [reflexivity|]. rewrite (Hk y). reflexivity.
  - apply IH1. intros y. apply IH2, Hk.
  - rewrite (IH1 x k k' Hk), (IH2 x k k' Hk). reflexivity.
  - apply Hrep; assumption.
  - apply IH. intros y. apply Hrep; assumption.
  - rewrite (IH x k k' Hk), (Hk x). reflexivity.
Qed.

(** A continuation that refuses everything makes every matcher fail. *)
Lemma matcher_refused (r : regex) (x : jsstring) :
  matcher r x (fun _ => false) = false.
Proof.
  revert x.
  assert (Hrep : forall body : jsstring -> continuation -> bool,
             (forall x k k', (forall y, k y = k' y) -> body x k = body x k') ->
             (forall x, body x (fun _ => false) = false) ->
             forall fuel x, repeat_matcher body fuel x (fun _ => false) = false).
  { intros body Hext Hbody fuel.
    induction fuel as [|fuel IH]; intros x; cbn [repeat_matcher];
      [reflexivity|].
    rewrite orb_false_r.
    transitivity (body x (fun _ => false)); [|apply Hbody].
    apply Hext. intros y. rewrite IH. apply andb_false_r. }
  induction r as [|p| |r1 IH1 r2 IH2|r1 IH1 r2 IH2|r IH|r IH|r IH];
    intros x; cbn [matcher].
  - reflexivity.
  - destruct x; [reflexivity | apply andb_false_r].
  - destruct x; [reflexivity | apply andb_false_r].
  - transitivity (matcher r1 x (fun _ => false)); [|apply IH1].
    apply matcher_ext. intros y. apply IH2.
  - rewrite IH1, IH2. reflexivity.
  - apply Hrep; [apply matcher_ext | exact IH].
  - transitivity (matcher r x (fun _ => false)); [|apply IH].
    apply matcher_ext. intros y.
    apply Hrep; [apply matcher_ext | exact IH].
  - rewrite IH. reflexivity.
Qed.

(** With no input left the repeat matcher only hands over. *)
Lemma repeat_matcher_nil (r : regex) (fuel : nat) (k : continuation) :
  repeat_matcher (matcher r) fuel [] k = k [].
Proof.
  destruct fuel as [|fuel]; [reflexivity|]. cbn [repeat_matcher length].
  rewrite (matcher_ext r [] _ (fun _ => false)) by reflexivity.
  rewrite matcher_refused. reflexivity.
Qed.

(** Fuel beyond the length of the input changes nothing. *)
Lemma repeat_matcher_fuel (r : regex) (n m : nat) (x : jsstring)
    (k : continuation) :
  (length x <= n)%nat ->
  (length x <= m)%nat ->
  repeat_matcher (matcher r) n x k = repeat_matcher (matcher r) m x k.
Proof.
  revert m x. induction n as [|n IH]; intros m x Hn Hm.
  - destruct x; [|cbn [length] in Hn; lia].
    rewrite !repeat_matcher_nil. reflexivity.
  - destruct m as [|m].
    + destruct x; [|cbn [length] in Hm; lia].
      rewrite !repeat_matcher_nil. reflexivity.
    + cbn [repeat_matcher]. f_equal. apply matcher_ext. intros y.
      destruct (length y <? length x)%nat eqn:Hy; [|reflexivity].
      apply Nat.ltb_lt in Hy. cbn [andb]. apply IH; lia.
Qed.

(** The equation of the repeat matcher: [r*] on [x] is one round of [r]
    that consumes something, followed by [r*] again, or nothing. *)
Lemma matcher_star (r : regex) (x : jsstring) (k : continuation) :
  matcher (Star r) x k
  = matcher r x (fun y => (length y <? length x)%nat && matcher (Star r) y k)
    || k x.
Proof.
  cbn [matcher]. destruct x as [|c x].
  - rewrite repeat_matcher_nil.
    rewrite (matcher_ext r [] _ (fun _ => false)) by reflexivity.
    rewrite matcher_refused. reflexivity.
  - cbn [length repeat_matcher]. f_equal. apply matcher_ext. intros y.
    destruct (length y <? S (length x))%nat eqn:Hy; [|reflexivity].
    apply Nat.ltb_lt in Hy. cbn [andb]. apply repeat_matcher_fuel; lia.
Qed.

(** *** Examples *)

Example new_i_quantifiers :
  new_i (str "(?:a|b*?c+|(d.)?)")
  = Compiled (Alt (Chr 97)
                (Alt (Seq (Star (Chr 98)) (Plus1 (Chr 99)))
                     (Opt (Seq (Chr 100) Any)))).
Proof. reflexivity. Qed.

Example new_i_nothing_to_repeat : new_i (str "(?:c++)") = SyntaxError.
Proof. reflexivity. Qed.

Example new_i_unterminated_group : new_i (str "(?:()") = SyntaxError.
Proof. reflexivity. Qed.

Example new_i_character_class : new_i (str "(?:[a-z])") = Unsupported.
Proof. reflexivity. Qed.

Example exec_found_star :
  exec_found (Seq (Chr 97) (Seq (Star (Alt (Chr 98) Eps)) (Chr 99)))
    (str "xxABBBc") = true.
Proof. reflexivity. Qed.

End RegExpFacts.

(** ** check *)

Lemma falsy_false_nonempty (value : option jsstring) :
  falsy value = false -> string_of value <> [].
Proof. destruct value as [[|c v]|]; cbn; congruence. Qed.

Lemma blacklist_nonempty_test (s : service) :
  blacklist s <> [] -> Nat.eqb (length (blacklist s)) 0 = false.
Proof. destruct (blacklist s); [congruence | reflexivity]. Qed.

Lemma blacklist_empty_test (s : service) :
  blacklist s = [] -> Nat.eqb (length (blacklist s)) 0 = true.
Proof. intros ->. reflexivity. Qed.

(** The line logged after a computed verdict never depends on it. *)
Lemma verdict_line (value : jsstring) (result : bool) :
  (if truthy (str "'" ++ value ++ str "' : " ++ bool_to_string result)
   then str "blachlisted" else str "whitelisted") = str "blachlisted".
Proof. reflexivity. Qed.

Lemma check_short (value : option jsstring) (s : service) :
  falsy value = true \/ blacklist s = [] -> check value s = (true, s, []).
Proof.
  intros [Hv | Hb]; unfold check.
  - rewrite Hv. reflexivity.
  - rewrite (blacklist_empty_test s Hb), orb_true_r. reflexivity.
Qed.

Lemma check_hit (value : option jsstring) (s : service) (b : bool) :
  falsy value = false ->
  blacklist s <> [] ->
  checkedTerms s !! hashCode (string_of value) = Some b ->
  check value s = (b, s, [log (str "Returning old cached value")]).
Proof.
  intros Hv Hb Hc. unfold check.
  rewrite Hv, (blacklist_nonempty_test s Hb). cbn [orb].
  rewrite Hc. reflexivity.
Qed.

Lemma check_miss (value : option jsstring) (s : service) :
  falsy value = false ->
  blacklist s <> [] ->
  checkedTerms s !! hashCode (string_of value) = None ->
  check value s
  = (computed_verdict s (string_of value),
     set_checkedTerms
       (<[hashCode (string_of value) := computed_verdict s (string_of value)]>
          (checkedTerms s)) s,
     [log (str "blachlisted")]).
Proof.
  intros Hv Hb Hc. unfold check.
  rewrite Hv, (blacklist_nonempty_test s Hb). cbn [orb].
  rewrite Hc. unfold computed_verdict.
  destruct (RegExp.exec_found (blacklistReg s) (string_of value)); reflexivity.
Qed.

(** C4. Whatever the state, if the text is empty or absent, or the
    blacklist is empty, [check] returns true at once: the state, and with
    it the result cache, is the one it was called in, and nothing is
    logged. *)
Theorem check_short_circuit (value : option jsstring) (s : service) :
  falsy value = true \/ blacklist s = [] ->
  check value s = (true, s, [])
  /\ checkedTerms (after_check value s) = checkedTerms s.
Proof.
  intros H. unfold after_check. rewrite (check_short value s H).
  split; reflexivity.
Qed.

Lemma check_short_circuit_empty_text :
  (falsy (Some []) = true \/ blacklist override_state = [])
  /\ check (Some []) override_state = (true, override_state, [])
  /\ checkedTerms (after_check (Some []) override_state)
     = checkedTerms override_state.
Proof.
  split; [left; reflexivity|].
  apply (check_short_circuit (Some []) override_state). left. reflexivity.
Defined.

(** C3. For every non-empty text checked while the blacklist is not
    empty and the cache has no entry for its hash: if the blacklist
    pattern does not match the text the verdict is true, and if it
    matches, the verdict is whether the whitelist pattern matches.  When
    the blacklist holds plain words and its pattern was built from it,
    the pattern matches exactly the texts in which one of the words
    occurs as a substring, letter case aside. *)
Theorem check_uncached (T : jsstring) (s : service) :
  T <> [] ->
  blacklist s <> [] ->
  checkedTerms s !! hashCode T = None ->
  (RegExp.exec_found (blacklistReg s) T = false -> verdict (Some T) s = true)
  /\ (RegExp.exec_found (blacklistReg s) T = true ->
      verdict (Some T) s = RegExp.exec_found (whitelistReg s) T)
  /\ (forallb plain_word (blacklist s) = true ->
      RegExp.new_i (alternation_source (blacklist s))
      = RegExp.Compiled (blacklistReg s) ->
      RegExp.exec_found (blacklistReg s) T
      = existsb (fun w => occurs_ci w T) (blacklist s)).
Proof.
  intros HT Hb Hc.
  assert (Hv : falsy (Some T) = false) by (destruct T; [congruence | reflexivity]).
  unfold verdict. rewrite (check_miss (Some T) s Hv Hb Hc).
  cbn [fst string_of]. unfold computed_verdict.
  split; [|split].
  - intros ->. reflexivity.
  - intros ->. reflexivity.
  - intros Hplain Hnew.
    rewrite (new_i_plain_alternation _ Hb Hplain) in Hnew.
    injection Hnew as <-. apply exec_found_plain_alternation, Hb.
Qed.

Lemma on_success_override :
  on_success override_response init = Some (Normal, override_state).
Proof. reflexivity. Qed.

Lemma check_uncached_that_is_bad :
  (str "that is bad" <> []
   /\ blacklist override_state <> []
   /\ checkedTerms override_state !! hashCode (str "that is bad") = None)
  /\ (RegExp.exec_found (blacklistReg override_state) (str "that is bad") = true
      /\ RegExp.exec_found (whitelistReg override_state) (str "that is bad")
         = false
      /\ verdict (Some (str "that is bad")) override_state = false).
Proof.
  assert (H1 : str "that is bad" <> []) by discriminate.
  assert (H2 : blacklist override_state <> []) by discriminate.
  assert (H3 : checkedTerms override_state !! hashCode (str "that is bad")
               = None) by reflexivity.
  split; [auto|].
  destruct (check_uncached (str "that is bad") override_state H1 H2 H3)
    as (_ & Hmatch & _).
  split; [reflexivity|]. split; [reflexivity|].
  rewrite Hmatch; reflexivity.
Defined.

(** Checking a text twice gives one verdict, whatever the text. *)
Lemma check_twice_same_verdict (value : option jsstring) (s : service) :
  verdict value (after_check value s) = verdict value s.
Proof.
  unfold verdict, after_check.
  destruct (falsy value) eqn:Hv.
  { rewrite (check_short value s) by auto. cbn [fst snd].
    rewrite (check_short value s) by auto. reflexivity. }
  destruct (blacklist s) as [|w ws] eqn:Hb.
  { rewrite (check_short value s) by auto. cbn [fst snd].
    rewrite (check_short value s) by auto. reflexivity. }
  assert (Hne : blacklist s <> []) by (rewrite Hb; discriminate).
  destruct (checkedTerms s !! hashCode (string_of value)) as [b|] eqn:Hc.
  - rewrite !(check_hit value s b Hv Hne Hc). cbn [fst snd].
    rewrite (check_hit value s b Hv Hne Hc). reflexivity.
  - rewrite !(check_miss value s Hv Hne Hc). cbn [fst snd].
    erewrite check_hit; [reflexivity | exact Hv | exact Hne |].
    cbn [set_checkedTerms checkedTerms]. apply lookup_insert_eq.
Qed.

(** C7, amended. Checking a text twice in a row gives the same verdict
    both times.  When the text is not empty and the blacklist is not
    empty, the second call finds the verdict in the cache and returns it,
    leaving the state as it is and logging the cache hit.  When the text
    is empty or absent, or the blacklist is empty, the second call
    returns true at once as the first did, without any cache entry. *)
Theorem check_twice (value : option jsstring) (s : service) :
  verdict value (after_check value s) = verdict value s
  /\ (falsy value = false ->
      blacklist s <> [] ->
      served_from_cache value (after_check value s)
      /\ check value (after_check value s)
         = (verdict value s, after_check value s,
            [log (str "Returning old cached value")]))
  /\ (falsy value = true \/ blacklist s = [] ->
      check value (after_check value s) = (true, s, [])
      /\ checkedTerms (after_check value s) = checkedTerms s
      /\ ~ served_from_cache value (after_check value s)).
Proof.
  split; [apply check_twice_same_verdict|]. split.
  - intros Hv Hne.
    assert (Hcached : checkedTerms (after_check value s)
                        !! hashCode (string_of value)
                      = Some (verdict value s)
                      /\ blacklist (after_check value s) <> []).
    { unfold after_check, verdict.
      destruct (checkedTerms s !! hashCode (string_of value)) as [b|] eqn:Hc.
      - rewrite (check_hit value s b Hv Hne Hc). cbn [fst snd]. auto.
      - rewrite (check_miss value s Hv Hne Hc). cbn [fst snd].
        cbn [set_checkedTerms checkedTerms blacklist].
        split; [apply lookup_insert_eq | exact Hne]. }
    destruct Hcached as [Hcached Hne'].
    split.
    + unfold served_from_cache.
      rewrite Hv, (blacklist_nonempty_test _ Hne'), check_twice_same_verdict.
      auto.
    + apply check_hit; assumption.
  - intros H. unfold served_from_cache, after_check.
    rewrite (check_short value s H). cbn [fst snd].
    rewrite (check_short value s H).
    split; [reflexivity|]. split; [reflexivity|].
    intros [Hguard _]. destruct H as [H | H].
    + rewrite H in Hguard. discriminate.
    + rewrite (blacklist_empty_test s H), orb_true_r in Hguard. discriminate.
Qed.

Lemma check_twice_cached_false :
  (falsy (Some (str "that is bad")) = false /\ blacklist override_state <> [])
  /\ verdict (Some (str "that is bad")) override_state = false
  /\ verdict (Some (str "that is bad"))
       (after_check (Some (str "that is bad")) override_state) = false
  /\ served_from_cache (Some (str "that is bad"))
       (after_check (Some (str "that is bad")) override_state).
Proof.
  assert (H1 : falsy (Some (str "that is bad")) = false) by reflexivity.
  assert (H2 : blacklist override_state <> []) by discriminate.
  destruct (check_twice (Some (str "that is bad")) override_state)
    as (Hsame & Hcached & _).
  destruct (Hcached H1 H2) as [Hserved _].
  split; [auto|]. split; [reflexivity|]. split; [|exact Hserved].
  rewrite Hsame. reflexivity.
Defined.

(** C7 as stated fails for a text checked before any list is loaded: both
    calls return true, and the second call finds no entry for the text:
    the first call stored none. *)
Lemma check_twice_without_cache :
  verdict (Some (str "clean text")) init = true
  /\ check (Some (str "clean text"))
       (after_check (Some (str "clean text")) init) = (true, init, [])
  /\ checkedTerms (after_check (Some (str "clean text")) init)
       !! hashCode (str "clean text") = None.
Proof. repeat split. Qed.

(** ** The list load *)

(** The state a completed load leaves. *)
Lemma on_success_normal (res : response) (s : service) (b w : RegExp.regex) :
  RegExp.new_i (alternation_source (blacklist s ++ or_empty (res_blacklist res)))
  = RegExp.Compiled b ->
  RegExp.new_i (alternation_source (whitelist s ++ or_empty (res_whitelist res)))
  = RegExp.Compiled w ->
  on_success res s
  = Some (Normal,
          {| blacklist := blacklist s ++ or_empty (res_blacklist res);
             blacklistReg := b;
             whitelist := whitelist s ++ or_empty (res_whitelist res);
             whitelistReg := w;
             checkedTerms := ∅ |}).
Proof.
  intros Hb Hw. unfold on_success. simpl_setters.
  rewrite Hb. simpl_setters. rewrite Hw. reflexivity.
Qed.

(** The two ways the callback ends. *)
Lemma on_success_cases (res : response) (s : service) (c : completion)
    (s' : service) :
  on_success res s = Some (c, s') ->
  (c = Normal
   /\ exists b w,
        RegExp.new_i
          (alternation_source (blacklist s ++ or_empty (res_blacklist res)))
        = RegExp.Compiled b
        /\ RegExp.new_i
             (alternation_source (whitelist s ++ or_empty (res_whitelist res)))
           = RegExp.Compiled w
        /\ s' = {| blacklist := blacklist s ++ or_empty (res_blacklist res);
                   blacklistReg := b;
                   whitelist := whitelist s ++ or_empty (res_whitelist res);
                   whitelistReg := w;
                   checkedTerms := ∅ |})
  \/ (c = Throw
      /\ blacklist s' = blacklist s ++ or_empty (res_blacklist res)
      /\ whitelist s' = whitelist s ++ or_empty (res_whitelist res)
      /\ whitelistReg s' = whitelistReg s
      /\ checkedTerms s' = checkedTerms s).
Proof.
  unfold on_success. simpl_setters.
  destruct (RegExp.new_i
              (alternation_source (blacklist s ++ or_empty (res_blacklist res))))
    as [b| |] eqn:Hb; [| |discriminate].
  - simpl_setters.
    destruct (RegExp.new_i
                (alternation_source
                   (whitelist s ++ or_empty (res_whitelist res))))
      as [w| |] eqn:Hw; [| |discriminate].
    + intros [= <- <-]. left. split; [reflexivity|]. exists b, w. auto.
    + intros [= <- <-]. right. cbn. auto.
  - intros [= <- <-]. right. cbn. auto.
Qed.

(** Every list of plain words has an alternation the constructor
    accepts. *)
Lemma plain_words_compile (ws : list jsstring) :
  forallb plain_word ws = true ->
  exists r, RegExp.new_i (alternation_source ws) = RegExp.Compiled r.
Proof.
  intros Hws. destruct ws as [|w ws].
  - exists RegExp.Eps. reflexivity.
  - eexists. apply new_i_plain_alternation; [discriminate | exact Hws].
Qed.

(** A load of plain words on lists of plain words always completes. *)
Lemma on_success_plain_words (res : response) (s : service) :
  forallb plain_word (blacklist s ++ or_empty (res_blacklist res)) = true ->
  forallb plain_word (whitelist s ++ or_empty (res_whitelist res)) = true ->
  exists s', on_success res s = Some (Normal, s').
Proof.
  intros Hb Hw.
  destruct (plain_words_compile _ Hb) as [b Hb'].
  destruct (plain_words_compile _ Hw) as [w Hw'].
  eexists. apply (on_success_normal res s b w Hb' Hw').
Qed.

(** C5, amended. When the alternations of the accumulated lists are
    patterns the constructor accepts, a successful load completes: it
    appends the fetched blacklist and whitelist fragments to the lists
    the service holds, an absent field counting as empty, and leaves as
    the two patterns the ones compiled from the accumulated lists. *)
Theorem load_appends_and_recompiles (res : response) (s : service)
    (b w : RegExp.regex) :
  RegExp.new_i (alternation_source (blacklist s ++ or_empty (res_blacklist res)))
  = RegExp.Compiled b ->
  RegExp.new_i (alternation_source (whitelist s ++ or_empty (res_whitelist res)))
  = RegExp.Compiled w ->
  exists s',
    on_success res s = Some (Normal, s')
    /\ blacklist s' = blacklist s ++ or_empty (res_blacklist res)
    /\ whitelist s' = whitelist s ++ or_empty (res_whitelist res)
    /\ blacklistReg s' = b
    /\ whitelistReg s' = w
    /\ patterns_consistent s'.
Proof.
  intros Hb Hw. eexists. split; [apply (on_success_normal res s b w Hb Hw)|].
  unfold patterns_consistent.
  cbn [blacklist whitelist blacklistReg whitelistReg].
  repeat split; try reflexivity; assumption.
Qed.

Lemma load_appends_to_override_state :
  (RegExp.new_i
     (alternation_source
        (blacklist override_state ++ or_empty (res_blacklist badword_response)))
   = RegExp.Compiled
       (RegExp.Alt (RegExp.word_regex (str "bad"))
                   (RegExp.word_regex (str "badword")))
   /\ RegExp.new_i
        (alternation_source
           (whitelist override_state
            ++ or_empty (res_whitelist badword_response)))
      = RegExp.Compiled (RegExp.word_regex (str "badass")))
  /\ exists s',
       on_success badword_response override_state = Some (Normal, s')
       /\ blacklist s' = [str "bad"; str "badword"]
       /\ whitelist s' = [str "badass"]
       /\ patterns_consistent s'.
Proof.
  assert (Hb : RegExp.new_i
                 (alternation_source
                    (blacklist override_state
                     ++ or_empty (res_blacklist badword_response)))
               = RegExp.Compiled
                   (RegExp.Alt (RegExp.word_regex (str "bad"))
                               (RegExp.word_regex (str "badword"))))
    by reflexivity.
  assert (Hw : RegExp.new_i
                 (alternation_source
                    (whitelist override_state
                     ++ or_empty (res_whitelist badword_response)))
               = RegExp.Compiled (RegExp.word_regex (str "badass")))
    by reflexivity.
  split; [auto|].
  destruct (load_appends_and_recompiles badword_response override_state _ _
              Hb Hw) as (s' & Hrun & Hbl & Hwl & _ & _ & Hcons).
  exists s'. auto.
Defined.

(** C5 as stated fails when a fetched fragment is not a pattern on its
    own.  Loading the single blacklist fragment "(" into the initial
    state appends it, the constructor rejects the alternation, and the
    callback ends there: the blacklist pattern is still the initial one
    and is not the pattern of the list. *)
Lemma load_malformed_fragment :
  exists s',
    on_success malformed_response init = Some (Throw, s')
    /\ blacklist s' = [str "("]
    /\ RegExp.new_i (alternation_source (blacklist s')) = RegExp.SyntaxError
    /\ blacklistReg s' = blacklistReg init
    /\ ~ patterns_consistent s'.
Proof.
  eexists. split; [reflexivity|]. split; [reflexivity|].
  split; [reflexivity|]. split; [reflexivity|].
  intros [Hb _]. discriminate Hb.
Qed.

(** ** The result cache *)

(** [check] touches nothing but the cache. *)
Lemma after_check_lists (value : option jsstring) (s : service) :
  set_checkedTerms ∅ (after_check value s) = set_checkedTerms ∅ s.
Proof.
  unfold after_check, check.
  destruct (falsy value || Nat.eqb (length (blacklist s)) 0); [reflexivity|].
  destruct (checkedTerms s !! hashCode (string_of value)); reflexivity.
Qed.

Lemma checks_lists (values : list (option jsstring)) (s : service) :
  set_checkedTerms ∅ (snd (checks values s)) = set_checkedTerms ∅ s.
Proof.
  revert s. induction values as [|value values IH]; intros s; [reflexivity|].
  cbn [checks]. specialize (IH (after_check value s)).
  destruct (checks values (after_check value s)) as [vs s'].
  cbn [snd] in *. rewrite IH. apply after_check_lists.
Qed.


Lemma uncached_verdict_short (value : option jsstring) (s : service) :
  falsy value = true \/ blacklist s = [] -> uncached_verdict value s = true.
Proof.
  intros H. unfold uncached_verdict, verdict.
  rewrite check_short; [reflexivity | exact H].
Qed.

Lemma uncached_verdict_computed (value : option jsstring) (s : service) :
  falsy value = false ->
  blacklist s <> [] ->
  uncached_verdict value s = computed_verdict s (string_of value).
Proof.
  intros Hv Hb. unfold uncached_verdict, verdict.
  rewrite check_miss; [reflexivity | exact Hv | exact Hb | reflexivity].
Qed.





(** Before the load the blacklist is empty, so no check stores a
    verdict: the service is still in its initial state. *)
Lemma checks_before_load (before : list (option jsstring)) :
  checks before init = (repeat true (length before), init).
Proof.
  induction before as [|value before IH]; [reflexivity|].
  cbn [checks length repeat]. unfold after_check, verdict.
  rewrite (check_short value init) by (right; reflexivity).
  cbn [fst snd]. rewrite IH. reflexivity.
Qed.




(** C9. When the list load fails, the error callback logs one line and
    leaves the state, that is both lists, both patterns and the result
    cache, as it was; every later [check] answers as it would have
    without the failed load. *)
Theorem load_failure_changes_nothing (s : service) :
  on_error s = (s, [log error_message])
  /\ (forall value, check value (fst (on_error s)) = check value s)
  /\ (forall es, run (LoadFailed :: es) s = run es s).
Proof. repeat split. Qed.

(** ** Loads without a whitelist *)

Lemma always_valid_init : always_valid init.
Proof.
  split.
  - intros x. apply exec_found_Eps.
  - intros h b. cbn [init checkedTerms]. rewrite lookup_empty. discriminate.
Qed.

Lemma always_valid_check (value : option jsstring) (s : service) :
  always_valid s ->
  verdict value s = true /\ always_valid (after_check value s).
Proof.
  intros [Hwhite Hcache]. unfold verdict, after_check.
  destruct (falsy value) eqn:Hv.
  { rewrite (check_short value s) by auto. split; [reflexivity | split; auto]. }
  destruct (blacklist s) as [|w0 ws] eqn:Hb.
  { rewrite (check_short value s) by auto. split; [reflexivity | split; auto]. }
  assert (Hne : blacklist s <> []) by (rewrite Hb; discriminate).
  destruct (checkedTerms s !! hashCode (string_of value)) as [old|] eqn:Hc.
  { rewrite (check_hit value s old Hv Hne Hc). cbn [fst snd].
    split; [exact (Hcache _ _ Hc) | split; auto]. }
  rewrite (check_miss value s Hv Hne Hc). cbn [fst snd].
  assert (Htrue : computed_verdict s (string_of value) = true).
  { unfold computed_verdict. rewrite Hwhite.
    destruct (RegExp.exec_found (blacklistReg s) (string_of value));
      reflexivity. }
  rewrite Htrue. split; [reflexivity|]. split; [exact Hwhite|].
  intros h b. cbn [set_checkedTerms checkedTerms].
  destruct (decide (hashCode (string_of value) = h)) as [<-|Hother].
  - rewrite lookup_insert_eq. congruence.
  - rewrite lookup_insert_ne by exact Hother. apply Hcache.
Qed.

Lemma always_valid_checks (values : list (option jsstring)) (s : service) :
  always_valid s ->
  fst (checks values s) = repeat true (length values)
  /\ always_valid (snd (checks values s)).
Proof.
  revert s. induction values as [|value values IH]; intros s Hs.
  - split; [reflexivity | exact Hs].
  - cbn [checks length repeat].
    destruct (always_valid_check value s Hs) as [Hv Hs'].
    specialize (IH _ Hs').
    destruct (checks values (after_check value s)) as [vs s'].
    cbn [fst snd] in *. destruct IH as [-> IH]. rewrite Hv. auto.
Qed.

Lemma always_valid_load (res : response) (s : service) (c : completion)
    (s' : service) :
  always_valid s ->
  whitelist s = [] ->
  or_empty (res_whitelist res) = [] ->
  on_success res s = Some (c, s') ->
  always_valid s' /\ whitelist s' = [].
Proof.
  intros [Hwhite Hcache] Hwl Hres Hload.
  destruct (on_success_cases res s c s' Hload)
    as [(_ & b & w & _ & Hw & ->) | (_ & _ & Hwl' & Hreg & Hsame)].
  - rewrite Hwl, Hres in Hw. cbn [app] in Hw.
    rewrite new_i_empty_alternation in Hw. injection Hw as <-.
    cbn [whitelist]. rewrite Hwl, Hres. split; [|reflexivity].
    split; cbn [whitelistReg checkedTerms].
    + apply exec_found_Eps.
    + intros h b'. rewrite lookup_empty. discriminate.
  - rewrite Hwl' , Hwl, Hres. split; [|reflexivity].
    split; [rewrite Hreg; exact Hwhite | rewrite Hsame; exact Hcache].
Qed.

(** C10. After the service's load, when the fetched blacklist is not
    empty and the whitelist field is absent or empty, the blacklist is
    not empty, the whitelist is, the whitelist pattern matches every
    string, and every [check] from then on returns true, whatever the
    text and whether or not it contains a blacklist fragment. *)
Theorem empty_whitelist_validates_everything (res : response)
    (before : list (option jsstring)) (c : completion) (s' : service) :
  or_empty (res_blacklist res) <> [] ->
  or_empty (res_whitelist res) = [] ->
  on_success res (snd (checks before init)) = Some (c, s') ->
  blacklist s' <> []
  /\ whitelist s' = []
  /\ (forall x, RegExp.exec_found (whitelistReg s') x = true)
  /\ (forall T, verdict (Some T) s' = true)
  /\ (forall later, fst (checks later s') = repeat true (length later)).
Proof.
  intros Hbl Hwl Hload. rewrite checks_before_load in Hload. cbn [snd] in Hload.
  destruct (always_valid_load res init c s' always_valid_init eq_refl Hwl Hload)
    as [Hvalid Hempty].
  split.
  { destruct (on_success_cases res init c s' Hload)
      as [(_ & b & w & _ & _ & ->) | (_ & -> & _)]; exact Hbl. }
  split; [exact Hempty|]. split; [exact (proj1 Hvalid)|]. split.
  - intros T. apply always_valid_check, Hvalid.
  - intros later. apply always_valid_checks, Hvalid.
Qed.

Lemma on_success_badword :
  on_success badword_response init = Some (Normal, badword_state).
Proof. reflexivity. Qed.

Lemma empty_whitelist_validates_badword :
  (or_empty (res_blacklist badword_response) <> []
   /\ or_empty (res_whitelist badword_response) = []
   /\ on_success badword_response (snd (checks [Some (str "early")] init))
      = Some (Normal, badword_state))
  /\ occurs_ci (str "badword") (str "this is a badword here") = true
  /\ verdict (Some (str "this is a badword here")) badword_state = true
  /\ fst (checks [Some (str "this is a badword here"); Some (str "BADWORD")]
            badword_state) = [true; true].
Proof.
  assert (H1 : or_empty (res_blacklist badword_response) <> [])
    by discriminate.
  assert (H2 : or_empty (res_whitelist badword_response) = [])
    by reflexivity.
  assert (H3 : on_success badword_response
                 (snd (checks [Some (str "early")] init))
               = Some (Normal, badword_state)) by reflexivity.
  destruct (empty_whitelist_validates_everything badword_response
              [Some (str "early")] Normal badword_state H1 H2 H3)
    as (_ & _ & _ & Hone & Hall).
  split; [auto|]. split; [reflexivity|]. split; [apply Hone|].
  apply (Hall [Some (str "this is a badword here"); Some (str "BADWORD")]).
Defined.

(** ** The scenario of the specification *)

(** C1, on the code. With the blacklist loaded as ["badword"] and the
    whitelist as the empty list, "clean text" is valid; "this is a
    badword here" contains the blacklisted word and the blacklist pattern
    matches it, yet [check] returns true for it too, because the
    whitelist pattern built from no fragment matches it. *)
Theorem badword_scenario :
  on_success badword_response init = Some (Normal, badword_state)
  /\ verdict (Some (str "clean text")) badword_state = true
  /\ occurs_ci (str "badword") (str "this is a badword here") = true
  /\ RegExp.exec_found (blacklistReg badword_state)
       (str "this is a badword here") = true
  /\ RegExp.exec_found (whitelistReg badword_state)
       (str "this is a badword here") = true
  /\ verdict (Some (str "this is a badword here")) badword_state = true.
Proof. repeat split. Qed.

(** C2, on the code. The pattern the constructor builds from an empty
    fragment list, ["(?:" + [].join("|") + ")"], and the initial pattern
    of both lists, [new RegExp("", "i")], match every string. *)
Theorem empty_alternation_matches_everything :
  exists r,
    RegExp.new_i (alternation_source []) = RegExp.Compiled r
    /\ RegExp.new_i (str "") = RegExp.Compiled (whitelistReg init)
    /\ RegExp.new_i (str "") = RegExp.Compiled (blacklistReg init)
    /\ forall T : jsstring,
         RegExp.exec_found r T = true
         /\ RegExp.exec_found (whitelistReg init) T = true
         /\ RegExp.exec_found (blacklistReg init) T = true.
Proof.
  exists RegExp.Eps. repeat split; apply exec_found_Eps.
Qed.

(** The service function builds the initial state. *)
Lemma construct_init : construct = Some init.
Proof. reflexivity. Qed.

(** ** Examples of runs *)

(** The second scenario of the specification: "bad" is blacklisted and
    "badass" whitelisted. *)
Example override_scenario :
  run [LoadSucceeded override_response;
       Check (Some (str "he is a badass"));
       Check (Some (str "that is bad"));
       Check (Some (str "That is BAD"));
       Check (Some (str "fine"));
       Check None] init
  = Some ([true; false; false; true; true],
          snd (checks [Some (str "he is a badass"); Some (str "that is bad");
                       Some (str "That is BAD"); Some (str "fine")]
                 override_state)).
Proof. reflexivity. Qed.

(** Two texts with one hash share a cache entry: the clean text "BB" gets
    the verdict of "Aa" when "Aa" was checked first. *)
Example check_collision :
  exists s,
    on_success collision_response init = Some (Normal, s)
    /\ fst (checks [Some (str "BB")] s) = [true]
    /\ fst (checks [Some (str "Aa"); Some (str "BB")] s) = [false; false].
Proof. eexists. repeat split. Qed.

(** * Further properties *)

(** ** hashCode and concatenation *)

Lemma poly31_fold_shift (t : jsstring) (acc : Z) :
  fold_left (fun a c => 31 * a + c) t acc
  = acc * 31 ^ Z.of_nat (length t) + fold_left (fun a c => 31 * a + c) t 0.
Proof.
  revert acc. induction t as [|c t IH]; intros acc.
  - cbn. lia.
  - cbn [fold_left length]. rewrite (IH (31 * acc + c)), (IH (31 * 0 + c)).
    rewrite Nat2Z.inj_succ, Z.pow_succ_r by lia. lia.
Qed.

Lemma hashCode_poly31 (s : jsstring) : hashCode s = Int32.toInt32 (poly31 s).
Proof. rewrite hashCode_fold. apply fold_spec_step_poly. reflexivity. Qed.

(** X1. The hash of a concatenation is computed from the hash of the
    first part and the code units of the second: the first hash times
    31 to the length of the second part, plus the polynomial of the
    second part, truncated to 32 bits. *)
Theorem hashCode_app (s t : jsstring) :
  hashCode (s ++ t)
  = Int32.toInt32 (hashCode s * 31 ^ Z.of_nat (length t) + poly31 t).
Proof.
  rewrite !hashCode_poly31. unfold poly31.
  rewrite fold_left_app, poly31_fold_shift.
  destruct (toInt32_shift (fold_left (fun a c => 31 * a + c) s 0)) as [q Hq].
  rewrite Hq.
  set (P := fold_left (fun a c => 31 * a + c) s 0).
  set (Q := fold_left (fun a c => 31 * a + c) t 0).
  replace ((P + q * Int32.modulus) * 31 ^ Z.of_nat (length t) + Q)
    with (P * 31 ^ Z.of_nat (length t) + Q
          + (q * 31 ^ Z.of_nat (length t)) * Int32.modulus) by lia.
  symmetry. apply toInt32_add_multiple.
Qed.

(** X2. Raising one code unit by one and lowering the next by 31 leaves
    the hash as it is, wherever the two stand in the text: such texts
    share one key of the result cache. *)
Theorem hashCode_neighbour_collision (p q : jsstring) (a b : Z) :
  hashCode (p ++ a :: b :: q) = hashCode (p ++ (a + 1) :: (b - 31) :: q).
Proof.
  rewrite !hashCode_poly31. f_equal. unfold poly31.
  rewrite !fold_left_app. cbn [fold_left]. f_equal. lia.
Qed.

(** ** The result cache between loads *)

Lemma same_lists_fields (s s' : service) :
  set_checkedTerms ∅ s' = set_checkedTerms ∅ s ->
  blacklist s' = blacklist s /\ blacklistReg s' = blacklistReg s
  /\ whitelist s' = whitelist s /\ whitelistReg s' = whitelistReg s.
Proof.
  intros H.
  pose proof (f_equal blacklist H) as H1.
  pose proof (f_equal blacklistReg H) as H2.
  pose proof (f_equal whitelist H) as H3.
  pose proof (f_equal whitelistReg H) as H4.
  cbn in H1, H2, H3, H4. auto.
Qed.

Lemma cache_grows_after_check (value : option jsstring) (s : service) :
  checkedTerms s ⊆ checkedTerms (after_check value s).
Proof.
  unfold after_check, check.
  destruct (falsy value || Nat.eqb (length (blacklist s)) 0); [reflexivity|].
  destruct (checkedTerms s !! hashCode (string_of value)) eqn:Hc;
    [reflexivity|].
  cbn [fst snd set_checkedTerms checkedTerms].
  apply insert_subseteq, Hc.
Qed.

Lemma cache_grows_checks (values : list (option jsstring)) (s : service) :
  checkedTerms s ⊆ checkedTerms (snd (checks values s)).
Proof.
  revert s. induction values as [|value values IH]; intros s; [reflexivity|].
  cbn [checks]. specialize (IH (after_check value s)).
  destruct (checks values (after_check value s)) as [vs s'].
  cbn [snd] in *.
  etransitivity; [apply cache_grows_after_check | exact IH].
Qed.

(** After a check that went past the guard, the verdict is in the
    cache. *)
Lemma after_check_cached (value : option jsstring) (s : service) :
  falsy value = false ->
  blacklist s <> [] ->
  checkedTerms (after_check value s) !! hashCode (string_of value)
  = Some (verdict value s).
Proof.
  intros Hv Hne. unfold after_check, verdict.
  destruct (checkedTerms s !! hashCode (string_of value)) as [b|] eqn:Hc.
  - rewrite (check_hit value s b Hv Hne Hc). exact Hc.
  - rewrite (check_miss value s Hv Hne Hc).
    cbn [fst snd set_checkedTerms checkedTerms]. apply lookup_insert_eq.
Qed.

(** X3. Between loads, [check] calls change nothing but the result
    cache, and the cache only grows: both lists and both patterns stay,
    and every verdict once cached is still cached, unchanged, after any
    number of further calls. *)
Theorem checks_only_grow_cache (values : list (option jsstring))
    (s : service) :
  blacklist (snd (checks values s)) = blacklist s
  /\ blacklistReg (snd (checks values s)) = blacklistReg s
  /\ whitelist (snd (checks values s)) = whitelist s
  /\ whitelistReg (snd (checks values s)) = whitelistReg s
  /\ checkedTerms s ⊆ checkedTerms (snd (checks values s))
  /\ (forall h b,
        checkedTerms s !! h = Some b ->
        checkedTerms (snd (checks values s)) !! h = Some b).
Proof.
  destruct (same_lists_fields s _ (checks_lists values s))
    as (H1 & H2 & H3 & H4).
  repeat (split; [assumption|]).
  split; [apply cache_grows_checks|].
  intros h b Hb. exact (lookup_weaken _ _ _ _ Hb (cache_grows_checks values s)).
Qed.

(** X4. Once a value has been checked, every later check of it gives
    the same verdict, whatever was checked in between, as long as no
    load intervenes. *)
Theorem verdict_stable (value : option jsstring)
    (between : list (option jsstring)) (s : service) :
  verdict value (snd (checks between (after_check value s)))
  = verdict value s.
Proof.
  set (s1 := after_check value s).
  set (s2 := snd (checks between s1)).
  assert (Hbl : blacklist s2 = blacklist s).
  { destruct (same_lists_fields s1 s2 (checks_lists between s1)) as [-> _].
    destruct (same_lists_fields s s1 (after_check_lists value s)) as [-> _].
    reflexivity. }
  unfold verdict at 1 2.
  destruct (falsy value) eqn:Hv.
  { rewrite (check_short value s2), (check_short value s) by auto.
    reflexivity. }
  destruct (blacklist s) as [|w ws] eqn:Hb.
  { rewrite (check_short value s2) by auto.
    rewrite (check_short value s) by auto. reflexivity. }
  assert (Hne : blacklist s <> []) by (rewrite Hb; discriminate).
  assert (Hne2 : blacklist s2 <> []) by (rewrite Hbl; discriminate).
  pose proof (after_check_cached value s Hv Hne) as Hc.
  fold s1 in Hc.
  pose proof (lookup_weaken _ _ _ _ Hc (cache_grows_checks between s1)) as Hc2.
  fold s2 in Hc2.
  rewrite (check_hit value s2 _ Hv Hne2 Hc2). reflexivity.
Qed.

(** X5. Two texts with one hash share a cache entry: when both are not
    empty and the blacklist is not empty, a check of the second right
    after the first returns the verdict of the first, whatever the
    patterns say about the second. *)
Theorem collision_returns_cached_verdict (v1 v2 : option jsstring)
    (s : service) :
  falsy v1 = false ->
  falsy v2 = false ->
  blacklist s <> [] ->
  hashCode (string_of v2) = hashCode (string_of v1) ->
  verdict v2 (after_check v1 s) = verdict v1 s.
Proof.
  intros H1 H2 Hne Hh.
  pose proof (after_check_cached v1 s H1 Hne) as Hc. rewrite <- Hh in Hc.
  assert (Hne' : blacklist (after_check v1 s) <> []).
  { destruct (same_lists_fields s _ (after_check_lists v1 s)) as [-> _].
    exact Hne. }
  unfold verdict at 1. rewrite (check_hit v2 _ _ H2 Hne' Hc). reflexivity.
Qed.

Lemma collision_returns_cached_verdict_BB :
  (falsy (Some (str "Aa")) = false
   /\ falsy (Some (str "BB")) = false
   /\ blacklist collision_state <> []
   /\ hashCode (string_of (Some (str "BB")))
      = hashCode (string_of (Some (str "Aa"))))
  /\ on_success collision_response init = Some (Normal, collision_state)
  /\ verdict (Some (str "BB")) collision_state = true
  /\ verdict (Some (str "Aa")) collision_state = false
  /\ verdict (Some (str "BB"))
       (after_check (Some (str "Aa")) collision_state) = false.
Proof.
  assert (H1 : falsy (Some (str "Aa")) = false) by reflexivity.
  assert (H2 : falsy (Some (str "BB")) = false) by reflexivity.
  assert (H3 : blacklist collision_state <> []) by discriminate.
  assert (H4 : hashCode (string_of (Some (str "BB")))
               = hashCode (string_of (Some (str "Aa")))) by reflexivity.
  split; [auto|]. split; [reflexivity|]. split; [reflexivity|].
  split; [reflexivity|].
  rewrite (collision_returns_cached_verdict _ _ _ H1 H2 H3 H4). reflexivity.
Defined.

(** X6. A call of [check] logs at most one line: none when it returns at
    the guard, the cache-hit note when the verdict was cached, and
    otherwise the line "[BlackListValidator] blachlisted", which names
    neither the text nor the verdict. *)
Theorem check_log_lines (value : option jsstring) (s : service) :
  (falsy value = true \/ blacklist s = [] -> logged value s = [])
  /\ (falsy value = false ->
      blacklist s <> [] ->
      (forall b,
         checkedTerms s !! hashCode (string_of value) = Some b ->
         logged value s = [log (str "Returning old cached value")])
      /\ (checkedTerms s !! hashCode (string_of value) = None ->
          logged value s = [str "[BlackListValidator] blachlisted"])).
Proof.
  unfold logged. split.
  - intros H. rewrite (check_short value s H). reflexivity.
  - intros Hv Hne. split.
    + intros b Hc. rewrite (check_hit value s b Hv Hne Hc). reflexivity.
    + intros Hc. rewrite (check_miss value s Hv Hne Hc). reflexivity.
Qed.

Lemma check_log_lines_that_is_bad :
  (falsy (Some (str "that is bad")) = false
   /\ blacklist override_state <> []
   /\ checkedTerms override_state !! hashCode (str "that is bad") = None)
  /\ verdict (Some (str "that is bad")) override_state = false
  /\ logged (Some (str "that is bad")) override_state
     = [str "[BlackListValidator] blachlisted"].
Proof.
  assert (H1 : falsy (Some (str "that is bad")) = false) by reflexivity.
  assert (H2 : blacklist override_state <> []) by discriminate.
  assert (H3 : checkedTerms override_state !! hashCode (str "that is bad")
               = None) by reflexivity.
  split; [auto|]. split; [reflexivity|].
  destruct (check_log_lines (Some (str "that is bad")) override_state)
    as [_ Hlog].
  destruct (Hlog H1 H2) as [_ Hmiss]. exact (Hmiss H3).
Defined.

(** ** Letter case *)

Lemma canonicalize_line_terminator (c d : Z) :
  RegExp.canonicalize c = RegExp.canonicalize d ->
  RegExp.line_terminator c = RegExp.line_terminator d.
Proof.
  unfold RegExp.canonicalize, RegExp.line_terminator. intros H.
  destruct ((97 <=? c) && (c <=? 122)) eqn:Hc;
    destruct ((97 <=? d) && (d <=? 122)) eqn:Hd;
    repeat match goal with
           | H : _ && _ = true |- _ => apply andb_prop in H as [? ?]
           | H : _ && _ = false |- _ => apply andb_false_iff in H
           end;
    repeat match goal with
           | |- context [?a =? ?b] =>
               let E := fresh "E" in destruct (Z.eqb_spec a b) as [E|E]
           end;
    try reflexivity; exfalso; lia.
Qed.

Lemma char_match_same_letters (p c d : Z) :
  RegExp.canonicalize c = RegExp.canonicalize d ->
  RegExp.char_match p c = RegExp.char_match p d.
Proof. unfold RegExp.char_match. intros ->. reflexivity. Qed.

Lemma same_letters_length (x y : jsstring) :
  same_letters x y -> length x = length y.
Proof. unfold same_letters. induction 1; cbn; congruence. Qed.

Lemma repeat_matcher_same_letters
    (body : jsstring -> RegExp.continuation -> bool) :
  (forall x y k k',
      same_letters x y ->
      (forall x' y', same_letters x' y' -> k x' = k' y') ->
      body x k = body y k') ->
  forall fuel x y k k',
    same_letters x y ->
    (forall x' y', same_letters x' y' -> k x' = k' y') ->
    RegExp.repeat_matcher body fuel x k = RegExp.repeat_matcher body fuel y k'.
Proof.
  intros Hbody fuel.
  induction fuel as [|fuel IH]; intros x y k k' Hxy Hk;
    cbn [RegExp.repeat_matcher].
  - apply Hk, Hxy.
  - rewrite (Hk x y Hxy). f_equal.
    apply Hbody; [exact Hxy|]. intros x' y' Hxy'.
    rewrite (same_letters_length x y Hxy), (same_letters_length x' y' Hxy').
    f_equal. apply IH; assumption.
Qed.

Lemma matcher_same_letters (r : RegExp.regex) :
  forall x y k k',
    same_letters x y ->
    (forall x' y', same_letters x' y' -> k x' = k' y') ->
    RegExp.matcher r x k = RegExp.matcher r y k'.
Proof.
  induction r as [|p| |r1 IH1 r2 IH2|r1 IH1 r2 IH2|r IH|r IH|r IH];
    intros x y k k' Hxy Hk; cbn [RegExp.matcher].
  - apply Hk, Hxy.
  - destruct Hxy as [|c d x y Hcd Hxy]; [reflexivity|].
    rewrite (char_match_same_letters p c d Hcd), (Hk x y Hxy). reflexivity.
  - destruct Hxy as [|c d x y Hcd Hxy]; [reflexivity|].
    rewrite (canonicalize_line_terminator c d Hcd), (Hk x y Hxy).
    reflexivity.
  - apply IH1; [exact Hxy|]. intros x' y' Hxy'. apply IH2; assumption.
  - rewrite (IH1 x y k k' Hxy Hk), (IH2 x y k k' Hxy Hk). reflexivity.
  - rewrite (same_letters_length x y Hxy).
    apply repeat_matcher_same_letters; assumption.
  - apply IH; [exact Hxy|]. intros x' y' Hxy'.
    rewrite (same_letters_length x' y' Hxy').
    apply repeat_matcher_same_letters; assumption.
  - rewrite (IH x y k k' Hxy Hk), (Hk x y Hxy). reflexivity.
Qed.

Lemma exec_found_same_letters (r : RegExp.regex) (x y : jsstring) :
  same_letters x y -> RegExp.exec_found r x = RegExp.exec_found r y.
Proof.
  induction 1 as [|c d x y Hcd Hxy IH]; [reflexivity|].
  cbn [RegExp.exec_found]. rewrite IH. f_equal.
  apply matcher_same_letters; [constructor; assumption | reflexivity].
Qed.

(** X7. Matching ignores the case of ASCII letters: two texts that
    differ in letter case only get the same verdict from the patterns,
    whatever the lists, as long as neither verdict comes from the
    cache. *)
Theorem verdict_ignores_case (T T' : jsstring) (s : service) :
  same_letters T T' ->
  uncached_verdict (Some T) s = uncached_verdict (Some T') s.
Proof.
  intros Hsame.
  assert (Hv : falsy (Some T) = falsy (Some T'))
    by (destruct Hsame; reflexivity).
  destruct (falsy (Some T)) eqn:HT.
  { rewrite !uncached_verdict_short by auto. reflexivity. }
  destruct (blacklist s) as [|w ws] eqn:Hb.
  { rewrite !uncached_verdict_short by auto. reflexivity. }
  assert (Hne : blacklist s <> []) by (rewrite Hb; discriminate).
  rewrite !uncached_verdict_computed by auto.
  unfold computed_verdict. cbn [string_of].
  rewrite (exec_found_same_letters (blacklistReg s) T T' Hsame).
  rewrite (exec_found_same_letters (whitelistReg s) T T' Hsame).
  reflexivity.
Qed.

Lemma verdict_ignores_case_bad :
  same_letters (str "That is BAD") (str "that is bad")
  /\ uncached_verdict (Some (str "That is BAD")) override_state = false
  /\ uncached_verdict (Some (str "that is bad")) override_state = false.
Proof.
  assert (H : same_letters (str "That is BAD") (str "that is bad"))
    by (repeat constructor).
  split; [exact H|]. split; [|reflexivity].
  rewrite (verdict_ignores_case _ _ override_state H). reflexivity.
Defined.

(** ** Loads of plain words *)

(** X8. When the accumulated lists hold only plain words and the
    blacklist is not empty, the load completes, and the first check of a
    non-empty text is valid exactly when no blacklist word occurs in it
    or some whitelist word does, letter case aside; with an empty
    whitelist every text is valid. *)
Theorem plain_load_verdict (res : response) (s : service) (T : jsstring) :
  forallb plain_word (blacklist s ++ or_empty (res_blacklist res)) = true ->
  forallb plain_word (whitelist s ++ or_empty (res_whitelist res)) = true ->
  blacklist s ++ or_empty (res_blacklist res) <> [] ->
  T <> [] ->
  exists s',
    on_success res s = Some (Normal, s')
    /\ verdict (Some T) s'
       = negb (some_occurs (blacklist s ++ or_empty (res_blacklist res)) T)
         || match whitelist s ++ or_empty (res_whitelist res) with
            | [] => true
            | _ :: _ =>
                some_occurs (whitelist s ++ or_empty (res_whitelist res)) T
            end.
Proof.
  intros Hb Hw Hne HT.
  pose proof (new_i_plain_alternation _ Hne Hb) as Hcb.
  assert (Hcw : exists w,
             RegExp.new_i
               (alternation_source
                  (whitelist s ++ or_empty (res_whitelist res)))
             = RegExp.Compiled w
             /\ RegExp.exec_found w T
                = match whitelist s ++ or_empty (res_whitelist res) with
                  | [] => true
                  | _ :: _ =>
                      some_occurs
                        (whitelist s ++ or_empty (res_whitelist res)) T
                  end).
  { destruct (whitelist s ++ or_empty (res_whitelist res)) as [|w0 ws] eqn:E.
    - exists RegExp.Eps. split; [reflexivity | apply exec_found_Eps].
    - eexists. split.
      + apply new_i_plain_alternation; [discriminate | exact Hw].
      + apply exec_found_plain_alternation. discriminate. }
  destruct Hcw as (w & Hcw & Hfw).
  eexists. split; [apply (on_success_normal res s _ w Hcb Hcw)|].
  assert (Hv : falsy (Some T) = false)
    by (destruct T; [congruence | reflexivity]).
  unfold verdict. rewrite check_miss; [| exact Hv | exact Hne | reflexivity].
  cbn [fst string_of]. unfold computed_verdict.
  cbn [blacklistReg whitelistReg].
  rewrite (exec_found_plain_alternation _ T Hne), Hfw.
  fold (some_occurs (blacklist s ++ or_empty (res_blacklist res)) T).
  destruct (some_occurs (blacklist s ++ or_empty (res_blacklist res)) T);
    reflexivity.
Qed.

Lemma plain_load_verdict_override :
  (forallb plain_word (blacklist init ++ or_empty (res_blacklist override_response))
   = true
   /\ forallb plain_word
        (whitelist init ++ or_empty (res_whitelist override_response)) = true
   /\ blacklist init ++ or_empty (res_blacklist override_response) <> []
   /\ str "a badass and a bad one" <> [])
  /\ exists s',
       on_success override_response init = Some (Normal, s')
       /\ verdict (Some (str "a badass and a bad one")) s' = true.
Proof.
  assert (H1 : forallb plain_word
                 (blacklist init ++ or_empty (res_blacklist override_response))
               = true) by reflexivity.
  assert (H2 : forallb plain_word
                 (whitelist init ++ or_empty (res_whitelist override_response))
               = true) by reflexivity.
  assert (H3 : blacklist init ++ or_empty (res_blacklist override_response)
               <> []) by discriminate.
  assert (H4 : str "a badass and a bad one" <> []) by discriminate.
  split; [auto|].
  destruct (plain_load_verdict override_response init
              (str "a badass and a bad one") H1 H2 H3 H4) as (s' & Hload & Hv).
  exists s'. split; [exact Hload|]. rewrite Hv. reflexivity.
Defined.

(** ** Loads the constructor interrupts *)

(** X9. When the success callback is interrupted by the constructor, the
    update is partial: both lists have the fetched fragments appended,
    the whitelist pattern and the result cache are the old ones, and the
    blacklist pattern is the old one when its own alternation was
    rejected, the new one when the whitelist alternation was. *)
Theorem interrupted_load_is_partial (res : response) (s s' : service) :
  on_success res s = Some (Throw, s') ->
  blacklist s' = blacklist s ++ or_empty (res_blacklist res)
  /\ whitelist s' = whitelist s ++ or_empty (res_whitelist res)
  /\ whitelistReg s' = whitelistReg s
  /\ checkedTerms s' = checkedTerms s
  /\ ((RegExp.new_i (alternation_source (blacklist s')) = RegExp.SyntaxError
       /\ blacklistReg s' = blacklistReg s)
      \/ (RegExp.new_i (alternation_source (blacklist s'))
          = RegExp.Compiled (blacklistReg s')
          /\ RegExp.new_i (alternation_source (whitelist s'))
             = RegExp.SyntaxError)).
Proof.
  unfold on_success. simpl_setters.
  destruct (RegExp.new_i
              (alternation_source (blacklist s ++ or_empty (res_blacklist res))))
    as [b| |] eqn:Hb; [| |discriminate].
  - simpl_setters.
    destruct (RegExp.new_i
                (alternation_source
                   (whitelist s ++ or_empty (res_whitelist res))))
      as [w| |] eqn:Hw; [discriminate| |discriminate].
    intros [= <-]. cbn [blacklist whitelist blacklistReg whitelistReg
                        checkedTerms].
    repeat (split; [reflexivity|]). right. split; assumption.
  - intros [= <-]. cbn [blacklist whitelist blacklistReg whitelistReg
                        checkedTerms].
    repeat (split; [reflexivity|]). left. split; [assumption | reflexivity].
Qed.

Lemma interrupted_load_malformed_whitelist :
  exists s',
    on_success malformed_whitelist_response override_state = Some (Throw, s')
    /\ blacklist s' = [str "bad"; str "bad"]
    /\ whitelist s' = [str "badass"; str "("]
    /\ whitelistReg s' = whitelistReg override_state
    /\ blacklistReg s'
       = RegExp.Alt (RegExp.word_regex (str "bad"))
                    (RegExp.word_regex (str "bad")).
Proof.
  eexists. split; [reflexivity|].
  destruct (interrupted_load_is_partial malformed_whitelist_response
              override_state _ eq_refl) as (Hb & Hw & Hr & _ & _).
  split; [exact Hb|]. split; [exact Hw|]. split; [exact Hr|]. reflexivity.
Defined.

(** X10. When the load the service performs is interrupted, on a
    rejected blacklist or whitelist alternation, every later check
    returns true: both lists hold the fetched words, but the whitelist
    pattern is still the initial one, which matches every string. *)
Theorem interrupted_first_load_disables_checks (res : response)
    (s' : service) (later : list (option jsstring)) :
  on_success res init = Some (Throw, s') ->
  blacklist s' = or_empty (res_blacklist res)
  /\ whitelist s' = or_empty (res_whitelist res)
  /\ fst (checks later s') = repeat true (length later).
Proof.
  intros Hload.
  destruct (on_success_cases res init Throw s' Hload)
    as [(Hc & _) | (_ & Hb & Hw & Hreg & Hcache)]; [discriminate|].
  split; [exact Hb|]. split; [exact Hw|].
  apply always_valid_checks. split.
  - intros x. rewrite Hreg. apply exec_found_Eps.
  - intros h b. rewrite Hcache. cbn [init checkedTerms].
    rewrite lookup_empty. discriminate.
Qed.

Lemma interrupted_first_load_cplusplus :
  on_success cplusplus_response init
  = Some (Throw,
          {| blacklist := [str "c++"; str "badword"];
             blacklistReg := RegExp.Eps;
             whitelist := [str "badass"];
             whitelistReg := RegExp.Eps;
             checkedTerms := ∅ |})
  /\ fst (checks [Some (str "this is a badword here")]
            {| blacklist := [str "c++"; str "badword"];
               blacklistReg := RegExp.Eps;
               whitelist := [str "badass"];
               whitelistReg := RegExp.Eps;
               checkedTerms := ∅ |}) = [true].
Proof.
  assert (H : on_success cplusplus_response init
              = Some (Throw,
                      {| blacklist := [str "c++"; str "badword"];
                         blacklistReg := RegExp.Eps;
                         whitelist := [str "badass"];
                         whitelistReg := RegExp.Eps;
                         checkedTerms := ∅ |})) by reflexivity.
  split; [exact H|].
  destruct (interrupted_first_load_disables_checks cplusplus_response _
              [Some (str "this is a badword here")] H) as (_ & _ & Hall).
  exact Hall.
Defined.

(** ** Successive loads *)

(** X11. Two loads that complete one after the other leave the state
    that the single load of both records' fragments, in order, leaves:
    fragments accumulate, duplicates included, and the patterns and the
    empty cache are those of the accumulated lists. *)
Theorem loads_accumulate (r1 r2 : response) (s s1 s2 : service) :
  on_success r1 s = Some (Normal, s1) ->
  on_success r2 s1 = Some (Normal, s2) ->
  on_success (merge_responses r1 r2) s = Some (Normal, s2)
  /\ blacklist s2
     = blacklist s ++ or_empty (res_blacklist r1) ++ or_empty (res_blacklist r2)
  /\ whitelist s2
     = whitelist s ++ or_empty (res_whitelist r1) ++ or_empty (res_whitelist r2).
Proof.
  intros H1 H2.
  destruct (on_success_cases r1 s Normal s1 H1)
    as [(_ & b1 & w1 & _ & _ & ->) | (Hc & _)]; [|discriminate].
  destruct (on_success_cases r2 _ Normal s2 H2)
    as [(_ & b2 & w2 & Hb2 & Hw2 & ->) | (Hc & _)]; [|discriminate].
  cbn [blacklist whitelist] in *.
  rewrite <- !app_assoc in *. split; [|split; reflexivity].
  rewrite (on_success_normal (merge_responses r1 r2) s b2 w2);
    [reflexivity | exact Hb2 | exact Hw2].
Qed.

Lemma loads_accumulate_override_twice :
  exists s2,
    (on_success override_response init = Some (Normal, override_state)
     /\ on_success override_response override_state = Some (Normal, s2))
    /\ on_success (merge_responses override_response override_response) init
       = Some (Normal, s2)
    /\ blacklist s2 = [str "bad"; str "bad"]
    /\ whitelist s2 = [str "badass"; str "badass"].
Proof.
  eexists.
  assert (H1 : on_success override_response init
               = Some (Normal, override_state)) by reflexivity.
  assert (H2 : on_success override_response override_state
               = Some (Normal, _)) by reflexivity.
  split; [split; [exact H1 | exact H2]|].
  destruct (loads_accumulate _ _ _ _ _ H1 H2) as (H & Hb & Hw).
  split; [exact H|]. split; [exact Hb | exact Hw].
Defined.

(** ** The directive *)

(** X12. Whatever the parser hands to the model is valid for the
    formatter: formatting the value the parser returned, in the state
    the parser left, sets the validity to true and returns that value;
    this holds for rejected texts too, which the parser turns into
    [undefined]. *)
Theorem formatter_accepts_parsed (value : option jsstring) (s : service) :
  validity (formatter (returned (parser value s))
              (service_after (parser value s))) = true
  /\ returned (formatter (returned (parser value s))
                 (service_after (parser value s)))
     = returned (parser value s)
  /\ (validity (parser value s) = false ->
      returned (parser value s) = None).
Proof.
  assert (Hp : parser value s
               = {| returned := if verdict value s then value else None;
                    validity := verdict value s;
                    service_after := after_check value s;
                    lines := logged value s |}).
  { unfold parser, verdict, after_check, logged.
    destruct (check value s) as [[v s'] l]. reflexivity. }
  assert (Hf : forall v t,
             formatter v t
             = {| returned := v; validity := verdict v t;
                  service_after := after_check v t;
                  lines := logged v t |}).
  { intros v t. unfold formatter, verdict, after_check, logged.
    destruct (check v t) as [[b t'] l]. reflexivity. }
  rewrite Hp, Hf. cbn [returned validity service_after].
  split; [|split; [reflexivity|]].
  - destruct (verdict value s) eqn:Hv.
    + rewrite check_twice_same_verdict. exact Hv.
    + unfold verdict. rewrite check_short by (left; reflexivity). reflexivity.
  - intros ->. reflexivity.
Qed.

(** ** The size of the cache *)

Lemma cache_size_after_check (value : option jsstring) (s : service) :
  (size (checkedTerms (after_check value s)) <= S (size (checkedTerms s)))%nat.
Proof.
  unfold after_check, check.
  destruct (falsy value || Nat.eqb (length (blacklist s)) 0);
    [cbn [fst snd]; lia|].
  destruct (checkedTerms s !! hashCode (string_of value)) eqn:Hc;
    [cbn [fst snd]; lia|].
  cbn [fst snd set_checkedTerms checkedTerms].
  rewrite (map_size_insert_None _ _ _ Hc). lia.
Qed.

(** X13. Each [check] adds at most one entry to the result cache, so
    after any number of calls the cache holds at most as many entries
    more as there were calls, and never fewer than before. *)
Theorem cache_size_bound (values : list (option jsstring)) (s : service) :
  (size (checkedTerms s) <= size (checkedTerms (snd (checks values s)))
   <= size (checkedTerms s) + length values)%nat.
Proof.
  split.
  - apply map_subseteq_size, cache_grows_checks.
  - revert s. induction values as [|value values IH]; intros s.
    + cbn. lia.
    + cbn [checks length]. specialize (IH (after_check value s)).
      pose proof (cache_size_after_check value s).
      destruct (checks values (after_check value s)) as [vs s'].
      cbn [snd] in *. lia.
Qed.
